(** * A growable array over raw memory: [RawMemory<T>] and [Vector<T>]

    Shallow embedding of [advanced-vector/vector.h].

    - A block of raw memory is a list of slots; a slot is either raw
      ([None]) or holds a live object ([Some x]).  Pointers and iterators
      into a block are offsets from its start.
    - Sizes and counts are natural numbers.  The byte count
      [n * sizeof(T)] that [Allocate] hands to [operator new] is the product
      of the machine's [size_t] ([SizeT]): on a machine of fixed width it
      wraps, and the block then has room for fewer than [n] objects while
      [capacity_] is [n].  [operator new] is taken to return the bytes it
      is asked for.  The facts about a count that the caller chooses
      ([Vector(n)], [Reserve(n)], [Resize(n)]), about growth and about the
      relocation policy hold on every machine, under the hypothesis that
      the byte count fits; section [any_machine] also says what these
      calls do when it has wrapped, and holds the facts that depend on no
      allocation.  The facts that quantify over containers of any size
      and allocate for the size of a block that exists, or for its double
      (any sequence of pushes, copies, insertion with growth), are stated
      on the machine [unbounded_size], whose [size_t] is as wide as the
      run needs; the lemmas named [_fits] carry them to every machine on
      which the counts fit.  Where the code decrements a size that is zero
      it goes on to address a slot outside the block; the decrement is
      written as an assertion.
    - Every operation runs in a small monad that records the element
      operations performed (constructor, assignment and destructor calls,
      in order) and that has no result on undefined behaviour: a read of a
      raw slot, an access outside the block, a violated [assert].  A
      library algorithm handed a range whose end precedes its start has no
      result either, or does nothing, as [RangeAlgorithms] says.
    - The functions model the executions in which no element operation
      throws.
    - Objects that can alias ([this] and [rhs] of an assignment) live in a
      store indexed by address. *)

From stdpp Require Import base ssreflect option list gmap strings.
From Stdlib Require Import ZArith.

Set Default Proof Using "Type".
Set Warnings "-rewrite-rw".

(** ** The element type *)

(** What the container needs to know about [T]: the value [T()] builds,
    the state a move leaves in its source, and the two type traits that
    [if constexpr] inspects. *)
Class ElementType (T : Type) := {
  default_value : T;
  moved_from : T → T;
  is_nothrow_move_constructible : bool;
  is_copy_constructible : bool;
}.

(** ** Element types used in the examples *)

(** [int]: a move leaves the source as it was. *)
Definition int_element : ElementType Z :=
  {| default_value := 0%Z;
     moved_from := λ x, x;
     is_nothrow_move_constructible := true;
     is_copy_constructible := true |}.

(** [std::string]: a move leaves the source empty. *)
Definition string_element : ElementType string :=
  {| default_value := EmptyString;
     moved_from := λ _, EmptyString;
     is_nothrow_move_constructible := true;
     is_copy_constructible := true |}.

(** A copyable type whose move constructor may throw. *)
Definition throwing_move_element : ElementType Z :=
  {| default_value := 0%Z;
     moved_from := λ _, 0%Z;
     is_nothrow_move_constructible := false;
     is_copy_constructible := true |}.

(** ** The library's range algorithms

    [std::move] and [std::move_backward] require a valid range.  Handed a
    range whose end precedes its start their behaviour is undefined; a
    library whose loop counts [last - first] down then does nothing.  The
    development is carried out for both treatments. *)
Class RangeAlgorithms := {
  inverted_range_is_empty : bool;
}.

(** An inverted range has no defined result. *)
Definition checked_ranges : RangeAlgorithms :=
  {| inverted_range_is_empty := false |}.

(** An inverted range is treated as an empty one. *)
Definition counted_ranges : RangeAlgorithms :=
  {| inverted_range_is_empty := true |}.

(** ** The machine's [size_t]

    [RawMemory::Allocate(n)] asks [operator new] for [n * sizeof(T)] bytes.
    The product is one of two [size_t] values and the code does not check
    it: when it exceeds [SIZE_MAX] it wraps, and the block that comes back
    is smaller than the [n] objects that [capacity_] then announces.  The
    model takes from the machine the size of an object and the product of
    two [size_t] values. *)
Class SizeT := {
  sizeof : nat;
  sizeof_pos : 0 < sizeof;
  size_mul : nat → nat → nat;
}.

(** A [size_t] of [bits] bits and objects of [bytes] bytes. *)
Definition size_t_bits (bits : N) (bytes : positive) : SizeT :=
  {| sizeof := Pos.to_nat bytes;
     sizeof_pos := Pos2Nat.is_pos bytes;
     size_mul := λ a b, N.to_nat ((N.of_nat a * N.of_nat b) mod 2 ^ bits)%N |}.

(** [int] of four bytes with a [size_t] of 64 bits, and [int] of two bytes
    with a [size_t] of 16 bits. *)
Definition int_size_t_64 : SizeT := size_t_bits 64 4.
Definition int_size_t_16 : SizeT := size_t_bits 16 2.

(** [std::string] of thirty-two bytes with a [size_t] of 64 bits. *)
Definition string_size_t_64 : SizeT := size_t_bits 64 32.

(** A [size_t] as wide as a run needs: no product wraps.  An object counts
    as one unit. *)
Definition unbounded_size : SizeT :=
  {| sizeof := 1; sizeof_pos := Nat.lt_0_1; size_mul := Nat.mul |}.

Section vector.
Context {T : Type} `{ElementType T} {R : RangeAlgorithms}.

(** A slot of a block: raw memory, or a live object and its value. *)
Abbreviation Slot := (option T) (only parsing).

(** Element operations, as a test double would count them. *)
Inductive Event : Type :=
  | EvValueInit (x : T)      (* T()            *)
  | EvConstruct (x : T)      (* T(args...)     *)
  | EvCopyCtor (x : T)       (* T(const T&)    *)
  | EvMoveCtor (x : T)       (* T(T&&)         *)
  | EvCopyAssign (x : T)     (* a = b          *)
  | EvMoveAssign (x : T)     (* a = move(b)    *)
  | EvDtor (x : T).          (* ~T()           *)

(** ** The monad: a log of element operations, or undefined behaviour *)

Definition M (A : Type) : Type := option (A * list Event).

Definition ret {A} (a : A) : M A := Some (a, []).
Definition ub {A} : M A := None.
Definition emit (e : Event) : M unit := Some ((), [e]).
Definition bind {A B} (m : M A) (f : A → M B) : M B :=
  match m with
  | None => None
  | Some (a, l1) =>
      match f a with
      | None => None
      | Some (b, l2) => Some (b, l1 ++ l2)
      end
  end.
Definition assert (b : bool) : M unit := if b then ret () else ub.

Notation "'let*' x := m 'in' k" := (bind m (λ x, k))
  (at level 10, x pattern, m at level 100, k at level 200).
Notation "m ;; k" := (bind m (λ _, k))
  (at level 100, k at level 200, right associativity).

(** ** Objects in raw memory *)

(** [*p] for a live object. *)
Definition read (buf : list Slot) (p : nat) : M T :=
  match buf !! p with
  | Some (Some x) => ret x
  | _ => ub
  end.

(** The store of a placement [new (p) T(...)], with the value built. *)
Definition place (buf : list Slot) (p : nat) (x : T) : M (list Slot) :=
  assert (bool_decide (p < length buf));; ret (<[p := Some x]> buf).

(** [p->~T()]: static [Vector::Destroy]. *)
Definition Destroy (buf : list Slot) (p : nat) : M (list Slot) :=
  let* x := read buf p in
  emit (EvDtor x);;
  ret (<[p := None]> buf).

(** Move assignment [d[0] = std::move(s[0])] inside one block. *)
Definition move_assign (buf : list Slot) (d s : nat) : M (list Slot) :=
  let* x := read buf s in
  let* _ := read buf d in
  emit (EvMoveAssign x);;
  ret (<[s := Some (moved_from x)]> (<[d := Some x]> buf)).

(** Move construction [new (d) T(std::move(s[0]))] inside one block. *)
Definition move_construct (buf : list Slot) (d s : nat) : M (list Slot) :=
  let* x := read buf s in
  emit (EvMoveCtor x);;
  let* buf' := place buf d x in
  ret (<[s := Some (moved_from x)]> buf').

(** Constructor arguments: [const T&], [T&&], or any other pack; [x] is the
    value of the object built. *)
Inductive CtorArgs : Type :=
  | ByCopy (x : T)
  | ByMove (x : T)
  | ByArgs (x : T).

Definition built (a : CtorArgs) : T :=
  match a with ByCopy x | ByMove x | ByArgs x => x end.

Definition ctor_event (a : CtorArgs) : Event :=
  match a with
  | ByCopy x => EvCopyCtor x
  | ByMove x => EvMoveCtor x
  | ByArgs x => EvConstruct x
  end.

(** [new (p) T(std::forward<Args>(args)...)]. *)
Definition construct (buf : list Slot) (p : nat) (a : CtorArgs) : M (list Slot) :=
  emit (ctor_event a);; place buf p (built a).

(** ** Library algorithms on blocks *)

(** [std::uninitialized_value_construct_n(p, n)]. *)
Fixpoint uninitialized_value_construct_n (buf : list Slot) (p n : nat) : M (list Slot) :=
  match n with
  | 0 => ret buf
  | S n' =>
      emit (EvValueInit default_value);;
      let* buf' := place buf p default_value in
      uninitialized_value_construct_n buf' (S p) n'
  end.

(** [std::uninitialized_copy_n(src + s, n, dst + d)], two different blocks. *)
Fixpoint uninitialized_copy_n (src : list Slot) (s n : nat) (dst : list Slot) (d : nat)
    : M (list Slot) :=
  match n with
  | 0 => ret dst
  | S n' =>
      let* x := read src s in
      emit (EvCopyCtor x);;
      let* dst' := place dst d x in
      uninitialized_copy_n src (S s) n' dst' (S d)
  end.

(** [std::uninitialized_move_n(src + s, n, dst + d)], two different blocks;
    returns the source block too, whose objects are now moved-from. *)
Fixpoint uninitialized_move_n (src : list Slot) (s n : nat) (dst : list Slot) (d : nat)
    : M (list Slot * list Slot) :=
  match n with
  | 0 => ret (src, dst)
  | S n' =>
      let* x := read src s in
      emit (EvMoveCtor x);;
      let* dst' := place dst d x in
      uninitialized_move_n (<[s := Some (moved_from x)]> src) (S s) n' dst' (S d)
  end.

(** [std::destroy_n(p, n)]. *)
Fixpoint destroy_n (buf : list Slot) (p n : nat) : M (list Slot) :=
  match n with
  | 0 => ret buf
  | S n' => let* buf' := Destroy buf p in destroy_n buf' (S p) n'
  end.

(** The loop of [std::move(first, last, d_first)] over [n] elements. *)
Fixpoint move_loop (buf : list Slot) (first n d_first : nat) : M (list Slot * nat) :=
  match n with
  | 0 => ret (buf, d_first)
  | S n' =>
      let* buf' := move_assign buf d_first first in
      move_loop buf' (S first) n' (S d_first)
  end.

(** [std::move(first, last, d_first)] inside one block; returns the end of
    the destination.  The standard requires [[first, last)] to be a valid
    range, that is [last] reachable from [first]. *)
Definition std_move (buf : list Slot) (first last d_first : nat) : M (list Slot * nat) :=
  if bool_decide (first ≤ last) then move_loop buf first (last - first) d_first
  else if inverted_range_is_empty then ret (buf, d_first)
  else ub.

(** The loop of [std::move_backward(first, last, d_last)] over [n] elements:
    both iterators are decremented, then the element is move-assigned. *)
Fixpoint move_backward_loop (buf : list Slot) (n last d_last : nat) : M (list Slot) :=
  match n with
  | 0 => ret buf
  | S n' =>
      assert (bool_decide (0 < last ∧ 0 < d_last));;
      let* buf' := move_assign buf (d_last - 1) (last - 1) in
      move_backward_loop buf' n' (last - 1) (d_last - 1)
  end.

(** [std::move_backward(first, last, d_last)] inside one block.  The
    standard requires [[first, last)] to be a valid range; with [last]
    before [first] the call is undefined (a counted loop does nothing, a
    loop on [first != last] or a [memmove] of [last - first] elements
    leaves the block). *)
Definition std_move_backward (buf : list Slot) (first last d_last : nat) : M (list Slot) :=
  if bool_decide (first ≤ last) then move_backward_loop buf (last - first) last d_last
  else if inverted_range_is_empty then ret buf
  else ub.

(** ** RawMemory *)

Record RawMemory : Type := mkRawMemory {
  buffer_ : list Slot;
  capacity_ : nat;
}.

Section machine.
Context {SZ : SizeT}.

(** The byte count of [n] objects is the product the machine computes: it
    has not wrapped. *)
Definition fits (n : nat) : Prop := size_mul n sizeof = n * sizeof.

(** [RawMemory::Allocate]: [operator new(n * sizeof(T))], [nullptr] for 0.
    The block has room for as many objects as the bytes asked for hold. *)
Definition Allocate (n : nat) : list Slot :=
  if bool_decide (n ≠ 0) then replicate (size_mul n sizeof / sizeof) None else [].

(** [explicit RawMemory(size_t capacity)]. *)
Definition RawMemory_new (capacity : nat) : RawMemory :=
  {| buffer_ := Allocate capacity; capacity_ := capacity |}.

(** [RawMemory::operator=(RawMemory&&)], [this] and [rhs] distinct: both
    members are swapped.  Returns [(this, rhs)]. *)
Definition RawMemory_move_assign (this rhs : RawMemory) : RawMemory * RawMemory :=
  ({| buffer_ := buffer_ rhs; capacity_ := capacity_ rhs |},
   {| buffer_ := buffer_ this; capacity_ := capacity_ this |}).

(** [RawMemory::Swap], [this] and [other] distinct.  Returns [(this, other)]. *)
Definition RawMemory_Swap (this other : RawMemory) : RawMemory * RawMemory :=
  ({| buffer_ := buffer_ other; capacity_ := capacity_ other |},
   {| buffer_ := buffer_ this; capacity_ := capacity_ this |}).

(** [RawMemory::operator+]: [assert(offset <= capacity_)]. *)
Definition RawMemory_plus (m : RawMemory) (offset : nat) : M nat :=
  assert (bool_decide (offset ≤ capacity_ m));; ret offset.

(** [RawMemory::operator[]]: [assert(index < capacity_)]; the slot. *)
Definition RawMemory_at (m : RawMemory) (index : nat) : M nat :=
  assert (bool_decide (index < capacity_ m));; ret index.

(** [RawMemory::GetAddress]: the start of the block. *)
Definition GetAddress (m : RawMemory) : nat := 0.

Definition RawMemory_Capacity (m : RawMemory) : nat := capacity_ m.

(** The same block descriptor over an updated block. *)
Definition with_buffer (m : RawMemory) (buf : list Slot) : RawMemory :=
  {| buffer_ := buf; capacity_ := capacity_ m |}.

(** ** Vector *)

Record Vector : Type := mkVector {
  data_ : RawMemory;
  size_ : nat;
}.

Definition Size (v : Vector) : nat := size_ v.
Definition Capacity (v : Vector) : nat := RawMemory_Capacity (data_ v).

Definition begin (v : Vector) : M nat := RawMemory_plus (data_ v) 0.
Definition end_ (v : Vector) : M nat := RawMemory_plus (data_ v) (size_ v).
Definition cbegin (v : Vector) : M nat := RawMemory_plus (data_ v) 0.
Definition cend (v : Vector) : M nat := RawMemory_plus (data_ v) (size_ v).

(** [Vector() = default]: [data_{0}], [size_ = 0]. *)
Definition Vector_default : Vector :=
  {| data_ := RawMemory_new 0; size_ := 0 |}.

(** [explicit Vector(size_t size)]. *)
Definition Vector_sized (size : nat) : M Vector :=
  let data := RawMemory_new size in
  let* buf := uninitialized_value_construct_n (buffer_ data) (GetAddress data) size in
  ret {| data_ := with_buffer data buf; size_ := size |}.

(** [Vector(const Vector& other)]. *)
Definition Vector_copy (other : Vector) : M Vector :=
  let data := RawMemory_new (size_ other) in
  let* buf := uninitialized_copy_n (buffer_ (data_ other)) (GetAddress (data_ other))
                (size_ other) (buffer_ data) (GetAddress data) in
  ret {| data_ := with_buffer data buf; size_ := size_ other |}.

(** [Vector(Vector&& other)]: the new object starts from its default
    member initialisers.  Returns [(this, other)]. *)
Definition Vector_move (other : Vector) : Vector * Vector :=
  let this := Vector_default in
  let '(d, od) := RawMemory_move_assign (data_ this) (data_ other) in
  ({| data_ := d; size_ := size_ other |}, {| data_ := od; size_ := size_ this |}).

(** [Vector::DestroyN]. *)
Fixpoint DestroyN (buf : list Slot) (p n : nat) : M (list Slot) :=
  match n with
  | 0 => ret buf
  | S n' => let* buf' := Destroy buf p in DestroyN buf' (S p) n'
  end.

(** [~Vector()]: destroys the live elements; the block is then released. *)
Definition Vector_dtor (v : Vector) : M unit :=
  DestroyN (buffer_ (data_ v)) (GetAddress (data_ v)) (size_ v);; ret ().

(** [Vector::Swap], [this] and [other] distinct.  Returns [(this, other)]. *)
Definition Swap (this other : Vector) : Vector * Vector :=
  let '(d, od) := RawMemory_Swap (data_ this) (data_ other) in
  ({| data_ := d; size_ := size_ other |}, {| data_ := od; size_ := size_ this |}).

(** [Vector::operator[]]: [assert(index < size_)], then [data_[index]]. *)
Definition at_ (v : Vector) (index : nat) : M T :=
  assert (bool_decide (index < size_ v));;
  let* p := RawMemory_at (data_ v) index in
  read (buffer_ (data_ v)) p.

(** The relocation policy chosen by [if constexpr]. *)
Definition relocate_by_move : bool :=
  is_nothrow_move_constructible || negb is_copy_constructible.

(** [Vector::Reserve]. *)
Definition Reserve (v : Vector) (new_capacity : nat) : M Vector :=
  if bool_decide (new_capacity ≤ RawMemory_Capacity (data_ v)) then ret v
  else
    let new_data := RawMemory_new new_capacity in
    let* (old, new) :=
      if relocate_by_move then
        uninitialized_move_n (buffer_ (data_ v)) (GetAddress (data_ v)) (size_ v)
          (buffer_ new_data) (GetAddress new_data)
      else
        let* new := uninitialized_copy_n (buffer_ (data_ v)) (GetAddress (data_ v)) (size_ v)
                      (buffer_ new_data) (GetAddress new_data) in
        ret (buffer_ (data_ v), new)
    in
    let* old := destroy_n old (GetAddress (data_ v)) (size_ v) in
    let '(d, _) := RawMemory_Swap (with_buffer (data_ v) old) (with_buffer new_data new) in
    ret {| data_ := d; size_ := size_ v |}.

(** [Vector::Resize]. *)
Definition Resize (v : Vector) (new_size : nat) : M Vector :=
  if bool_decide (size_ v < new_size) then
    let* v := Reserve v new_size in
    let* p := RawMemory_plus (data_ v) (size_ v) in
    let* buf := uninitialized_value_construct_n (buffer_ (data_ v)) p (new_size - size_ v) in
    ret {| data_ := with_buffer (data_ v) buf; size_ := new_size |}
  else if bool_decide (new_size < size_ v) then
    let* p := RawMemory_plus (data_ v) new_size in
    let* buf := destroy_n (buffer_ (data_ v)) p (size_ v - new_size) in
    ret {| data_ := with_buffer (data_ v) buf; size_ := new_size |}
  else
    ret {| data_ := data_ v; size_ := new_size |}.

(** [Vector::EmplaceBack]; returns the vector and the slot of the object
    the returned reference designates. *)
Definition EmplaceBack (v : Vector) (args : CtorArgs) : M (Vector * nat) :=
  let* v :=
    if bool_decide (size_ v = Capacity v) then
      let new_data := RawMemory_new (if bool_decide (size_ v = 0) then 1 else size_ v * 2) in
      let* p := RawMemory_plus new_data (size_ v) in
      let* new := construct (buffer_ new_data) p args in
      let* (old, new) :=
        if relocate_by_move then
          uninitialized_move_n (buffer_ (data_ v)) (GetAddress (data_ v)) (size_ v)
            new (GetAddress new_data)
        else
          let* new := uninitialized_copy_n (buffer_ (data_ v)) (GetAddress (data_ v)) (size_ v)
                        new (GetAddress new_data) in
          ret (buffer_ (data_ v), new)
      in
      let* old := destroy_n old (GetAddress (data_ v)) (size_ v) in
      let '(d, _) := RawMemory_Swap (with_buffer (data_ v) old) (with_buffer new_data new) in
      ret {| data_ := d; size_ := size_ v |}
    else
      let* p := RawMemory_plus (data_ v) (size_ v) in
      let* buf := construct (buffer_ (data_ v)) p args in
      ret {| data_ := with_buffer (data_ v) buf; size_ := size_ v |}
  in
  let v := {| data_ := data_ v; size_ := S (size_ v) |} in
  let* r := RawMemory_at (data_ v) (size_ v - 1) in
  ret (v, r).

(** [Vector::PushBack(const T&)] and [Vector::PushBack(T&&)]. *)
Definition PushBack (v : Vector) (value : T) : M Vector :=
  let* (v, _) := EmplaceBack v (ByCopy value) in ret v.
Definition PushBack_rvalue (v : Vector) (value : T) : M Vector :=
  let* (v, _) := EmplaceBack v (ByMove value) in ret v.

(** [Vector::Erase]; returns the vector and the returned iterator. *)
Definition Erase (v : Vector) (pos : nat) : M (Vector * nat) :=
  let* cb := cbegin v in
  let dist := pos - cb in
  let* b := begin v in
  let cur := b + dist in
  let* e := end_ v in
  let* (buf, last) := std_move (buffer_ (data_ v)) (cur + 1) e cur in
  let* buf := Destroy buf last in
  assert (bool_decide (0 < size_ v));;
  ret ({| data_ := with_buffer (data_ v) buf; size_ := size_ v - 1 |}, cur).

(** [Vector::Emplace]; returns the vector and the returned iterator. *)
Definition Emplace (v : Vector) (pos : nat) (args : CtorArgs) : M (Vector * nat) :=
  let* cb := cbegin v in
  let dist := pos - cb in
  let* b := begin v in
  let it := b + dist in
  let* v :=
    if bool_decide (size_ v = RawMemory_Capacity (data_ v)) then
      let new_data := RawMemory_new (if bool_decide (size_ v = 0) then 1 else size_ v * 2) in
      let* new := construct (buffer_ new_data) (GetAddress new_data + dist) args in
      let* (old, new) :=
        if relocate_by_move then
          let* (old, new) :=
            uninitialized_move_n (buffer_ (data_ v)) (GetAddress (data_ v)) dist
              new (GetAddress new_data) in
          uninitialized_move_n old it (size_ v - dist) new (GetAddress new_data + dist + 1)
        else
          let* new := uninitialized_copy_n (buffer_ (data_ v)) (GetAddress (data_ v)) dist
                        new (GetAddress new_data) in
          let* new := uninitialized_copy_n (buffer_ (data_ v)) it (size_ v - dist)
                        new (GetAddress new_data + dist + 1) in
          ret (buffer_ (data_ v), new)
      in
      let* old := destroy_n old (GetAddress (data_ v)) (size_ v) in
      let '(d, _) := RawMemory_Swap (with_buffer (data_ v) old) (with_buffer new_data new) in
      ret {| data_ := d; size_ := size_ v |}
    else if bool_decide (size_ v ≠ 0) then
      (* T temp{args...} *)
      emit (ctor_event args);;
      let temp := built args in
      let* buf :=
        if bool_decide (size_ v ≠ 0) then
          let* e := end_ v in
          let* s := RawMemory_at (data_ v) (size_ v - 1) in
          move_construct (buffer_ (data_ v)) e s
        else ret (buffer_ (data_ v))
      in
      let* e := end_ v in
      let* buf := std_move_backward buf it (e - 1) e in
      (* *it = std::move(temp) *)
      let* _ := read buf it in
      emit (EvMoveAssign temp);;
      let buf := <[it := Some temp]> buf in
      (* temp.~T() *)
      emit (EvDtor (moved_from temp));;
      ret {| data_ := with_buffer (data_ v) buf; size_ := size_ v |}
    else
      let* buf := construct (buffer_ (data_ v)) it args in
      ret {| data_ := with_buffer (data_ v) buf; size_ := size_ v |}
  in
  let v := {| data_ := data_ v; size_ := S (size_ v) |} in
  let* r := RawMemory_plus (data_ v) dist in
  ret (v, r).

(** [Vector::Insert(const_iterator, const T&)] and
    [Vector::Insert(const_iterator, T&&)]. *)
Definition Insert (v : Vector) (pos : nat) (value : T) : M (Vector * nat) :=
  Emplace v pos (ByCopy value).
Definition Insert_rvalue (v : Vector) (pos : nat) (value : T) : M (Vector * nat) :=
  Emplace v pos (ByMove value).

(** [Vector::PopBack]. *)
Definition PopBack (v : Vector) : M Vector :=
  assert (bool_decide (0 < size_ v));;
  let v := {| data_ := data_ v; size_ := size_ v - 1 |} in
  let* p := RawMemory_plus (data_ v) (size_ v) in
  let* buf := Destroy (buffer_ (data_ v)) p in
  ret {| data_ := with_buffer (data_ v) buf; size_ := size_ v |}.

(** ** Operations whose operands can be the same object *)

(** Vector objects by address. *)
Definition deref (σ : gmap nat Vector) (a : nat) : M Vector :=
  match σ !! a with
  | Some v => ret v
  | None => ub
  end.

(** [data_[i] = x]: copy assignment to a live object of the block. *)
Definition copy_assign_elem (data : RawMemory) (i : nat) (x : T) : M RawMemory :=
  let* p := RawMemory_at data i in
  let* _ := read (buffer_ data) p in
  emit (EvCopyAssign x);;
  ret (with_buffer data (<[p := Some x]> (buffer_ data))).

(** [for (; i < bound; ++i) data_[i] = rhs[i]], with [n] iterations left. *)
Fixpoint assign_loop (data : RawMemory) (rhs : Vector) (i n : nat) : M RawMemory :=
  match n with
  | 0 => ret data
  | S n' =>
      let* x := at_ rhs i in
      let* data := copy_assign_elem data i x in
      assign_loop data rhs (S i) n'
  end.

(** The body of [Vector::operator=(const Vector&)] under [this != &rhs]. *)
Definition copy_assign_from (this rhs : Vector) : M Vector :=
  if bool_decide (RawMemory_Capacity (data_ this) < size_ rhs) then
    let* copy_rhs := Vector_copy rhs in
    let '(this, copy_rhs) := Swap this copy_rhs in
    Vector_dtor copy_rhs;;
    ret this
  else
    let* data :=
      if bool_decide (size_ rhs < size_ this) then
        let* data := assign_loop (data_ this) rhs 0 (size_ rhs) in
        let* p := RawMemory_plus data (size_ rhs) in
        let* buf := destroy_n (buffer_ data) p (size_ this - size_ rhs) in
        ret (with_buffer data buf)
      else
        let* data := assign_loop (data_ this) rhs 0 (size_ this) in
        let* s := RawMemory_plus (data_ rhs) (size_ this) in
        let* d := RawMemory_plus data (size_ this) in
        let* buf := uninitialized_copy_n (buffer_ (data_ rhs)) s (size_ rhs - size_ this)
                      (buffer_ data) d in
        ret (with_buffer data buf)
    in
    ret {| data_ := data; size_ := size_ rhs |}.

(** [Vector::operator=(const Vector&)] on the objects at [this] and [rhs]. *)
Definition copy_assign (σ : gmap nat Vector) (this rhs : nat) : M (gmap nat Vector) :=
  let* v := deref σ this in
  let* r := deref σ rhs in
  if bool_decide (this ≠ rhs) then
    let* v' := copy_assign_from v r in
    ret (<[this := v']> σ)
  else ret σ.

(** [Vector::operator=(Vector&&)] on the objects at [this] and [rhs]:
    [data_ = std::move(rhs.data_)] swaps the two blocks and [std::swap]
    swaps the two sizes.  Each member of [this] is written first and the
    member of [rhs] last, so when both are one object nothing changes. *)
Definition move_assign_vec (σ : gmap nat Vector) (this rhs : nat) : M (gmap nat Vector) :=
  let* v := deref σ this in
  let* r := deref σ rhs in
  let '(d, rd) := RawMemory_move_assign (data_ v) (data_ r) in
  ret (<[rhs := {| data_ := rd; size_ := size_ v |}]>
       (<[this := {| data_ := d; size_ := size_ r |}]> σ)).

(** [Vector::Swap] on the objects at [this] and [other]. *)
Definition Swap_at (σ : gmap nat Vector) (this other : nat) : M (gmap nat Vector) :=
  let* v := deref σ this in
  let* o := deref σ other in
  let '(v', o') := Swap v o in
  ret (<[other := o']> (<[this := v']> σ)).

(** ** Observations *)

(** The sequence of live elements, slots [0 .. size_). *)
Definition elements (v : Vector) : list T :=
  omap id (take (size_ v) (buffer_ (data_ v))).

(** The container with elements [xs] and [spare] raw slots after them. *)
Definition vec (xs : list T) (spare : nat) : Vector :=
  {| data_ := {| buffer_ := (Some <$> xs) ++ replicate spare None;
                 capacity_ := length xs + spare |};
     size_ := length xs |}.

(** The data-model invariant: the block has [capacity_] slots, the first
    [size_] hold live objects and the others are raw. *)
Definition wf (v : Vector) : Prop :=
  length (buffer_ (data_ v)) = capacity_ (data_ v) ∧
  size_ v ≤ capacity_ (data_ v) ∧
  (∀ i, i < size_ v → is_Some (buffer_ (data_ v) !! i ≫= id)) ∧
  (∀ i, size_ v ≤ i → i < capacity_ (data_ v) → buffer_ (data_ v) !! i = Some None).

(** Element operations of a relocation of [xs] to a new block, followed by
    the destruction of the originals. *)
Definition relocation (xs : list T) : list Event :=
  if relocate_by_move then (EvMoveCtor <$> xs) ++ (EvDtor <$> (moved_from <$> xs))
  else (EvCopyCtor <$> xs) ++ (EvDtor <$> xs).

(** What a shift leaves in the slot it vacates: the object [y] that was
    there if nothing moved, else the moved-from state of the last mover. *)
Definition residue (y : T) (mover : option T) : T :=
  from_option moved_from y mover.

(** One call of [PushBack(const T&)], [PushBack(T&&)] or
    [EmplaceBack(args...)], whichever takes the argument. *)
Definition push_back (v : Vector) (a : CtorArgs) : M Vector :=
  match a with
  | ByCopy x => PushBack v x
  | ByMove x => PushBack_rvalue v x
  | ByArgs _ => let* (v', _) := EmplaceBack v a in ret v'
  end.

(** A sequence of such calls on one container. *)
Fixpoint push_back_all (v : Vector) (args : list CtorArgs) : M Vector :=
  match args with
  | [] => ret v
  | a :: args' => let* v' := push_back v a in push_back_all v' args'
  end.

(** ** Programs over the public interface

    One step is one call of a public member on objects of the store, made
    within the documented precondition of the call and with defined
    behaviour.  Constructors add an object at a fresh address and the
    destructor removes one. *)
Inductive step : gmap nat Vector → gmap nat Vector → Prop :=
  | step_default σ a :
      σ !! a = None → step σ (<[a := Vector_default]> σ)
  | step_sized σ a n v log :
      σ !! a = None → Vector_sized n = Some (v, log) → step σ (<[a := v]> σ)
  | step_copy σ a b other v log :
      σ !! a = None → σ !! b = Some other → Vector_copy other = Some (v, log) →
      step σ (<[a := v]> σ)
  | step_move σ a b other :
      σ !! a = None → σ !! b = Some other →
      step σ (<[b := (Vector_move other).2]> (<[a := (Vector_move other).1]> σ))
  | step_copy_assign σ a b σ' log :
      copy_assign σ a b = Some (σ', log) → step σ σ'
  | step_move_assign σ a b σ' log :
      move_assign_vec σ a b = Some (σ', log) → step σ σ'
  | step_swap σ a b σ' log :
      Swap_at σ a b = Some (σ', log) → step σ σ'
  | step_dtor σ a v log :
      σ !! a = Some v → Vector_dtor v = Some ((), log) → step σ (delete a σ)
  | step_reserve σ a v n v' log :
      σ !! a = Some v → Reserve v n = Some (v', log) → step σ (<[a := v']> σ)
  | step_resize σ a v n v' log :
      σ !! a = Some v → Resize v n = Some (v', log) → step σ (<[a := v']> σ)
  | step_push_back σ a v args v' log :
      σ !! a = Some v → push_back v args = Some (v', log) → step σ (<[a := v']> σ)
  | step_emplace σ a v pos args v' r log :
      σ !! a = Some v → pos ≤ Size v → Emplace v pos args = Some (v', r, log) →
      step σ (<[a := v']> σ)
  | step_insert σ a v pos x v' r log :
      σ !! a = Some v → pos ≤ Size v → Insert v pos x = Some (v', r, log) →
      step σ (<[a := v']> σ)
  | step_insert_rvalue σ a v pos x v' r log :
      σ !! a = Some v → pos ≤ Size v → Insert_rvalue v pos x = Some (v', r, log) →
      step σ (<[a := v']> σ)
  | step_erase σ a v pos v' r log :
      σ !! a = Some v → pos < Size v → Erase v pos = Some (v', r, log) →
      step σ (<[a := v']> σ)
  | step_pop_back σ a v v' log :
      σ !! a = Some v → PopBack v = Some (v', log) → step σ (<[a := v']> σ).

(** The stores a program can reach from the empty store. *)
Definition reachable (σ : gmap nat Vector) : Prop := rtc step ∅ σ.

(** Doubling from an empty block keeps the capacity a power of two that is
    less than twice the size. *)
Definition doubled (xs : list T) (spare : nat) : Prop :=
  (xs = [] ∧ spare = 0) ∨
  ∃ k, length xs + spare = 2 ^ k ∧ 2 ^ k < 2 * length xs.

(** ** Sequences of calls on one container *)

(** A call of a public member that changes the container. *)
Inductive Call : Type :=
  | CallReserve (new_capacity : nat)
  | CallResize (new_size : nat)
  | CallPushBack (args : CtorArgs)
  | CallEmplace (pos : nat) (args : CtorArgs)
  | CallErase (pos : nat)
  | CallPopBack.

(** One call.  The position handed to [Emplace] is an iterator of the
    container, so it lies within [[begin, end]]; the other members are
    called as they are. *)
Definition call (v : Vector) (c : Call) : M Vector :=
  match c with
  | CallReserve n => Reserve v n
  | CallResize n => Resize v n
  | CallPushBack a => push_back v a
  | CallEmplace pos a =>
      assert (bool_decide (pos ≤ Size v));;
      let* (v', _) := Emplace v pos a in ret v'
  | CallErase pos => let* (v', _) := Erase v pos in ret v'
  | CallPopBack => PopBack v
  end.

(** The calls of a list, in order. *)
Fixpoint run (v : Vector) (calls : list Call) : M Vector :=
  match calls with
  | [] => ret v
  | c :: calls' => let* v' := call v c in run v' calls'
  end.

(** The capacity that [EmplaceBack] and [Emplace] ask for when the container
    is full: [size_ == 0 ? 1 : size_ * 2]. *)
Definition grown_capacity (v : Vector) : nat :=
  if bool_decide (size_ v = 0) then 1 else size_ v * 2.

(** The byte count of the block that a call allocates, if it allocates
    one, has not wrapped.  [Reserve] and [Resize] allocate for the count
    given when it exceeds the capacity, [PushBack], [EmplaceBack] and
    [Emplace] for the grown capacity when the container is full. *)
Definition call_fits (v : Vector) (c : Call) : Prop :=
  match c with
  | CallReserve n | CallResize n => Capacity v < n → fits n
  | CallPushBack _ | CallEmplace _ _ => Size v = Capacity v → fits (grown_capacity v)
  | CallErase _ | CallPopBack => True
  end.

(** The same for every call of a run. *)
Fixpoint run_fits (v : Vector) (calls : list Call) : Prop :=
  match calls with
  | [] => True
  | c :: calls' =>
      call_fits v c ∧
      match call v c with
      | Some (v', _) => run_fits v' calls'
      | None => True
      end
  end.

(** The change in the number of live objects that an element operation
    makes: a constructor call adds one, a destructor call removes one, an
    assignment leaves it. *)
Definition live_change (e : Event) : Z :=
  match e with
  | EvValueInit _ | EvConstruct _ | EvCopyCtor _ | EvMoveCtor _ => 1
  | EvCopyAssign _ | EvMoveAssign _ => 0
  | EvDtor _ => -1
  end%Z.

(** Constructor calls minus destructor calls of a log. *)
Definition balance (log : list Event) : Z :=
  foldr (λ e z, (live_change e + z)%Z) 0%Z log.

End machine.

(** Until the section [any_machine] the machine is the one whose [size_t]
    does not wrap. *)
#[local] Existing Instance unbounded_size.

(** * Facts about the monad and the block algorithms *)

Implicit Types (x y : T) (xs ys : list T).
Implicit Types (buf pre mid post : list Slot).


Lemma bind_ret {A B} (a : A) (f : A → M B) : bind (ret a) f = f a.
Proof. simpl. by destruct (f a) as [[b l]|]. Qed.


Lemma assert_true {A} (b : bool) (k : M A) : b = true → (bind (assert b) (λ _, k)) = k.
Proof. intros ->. apply bind_ret. Qed.

Lemma assert_decide {A} (P : Prop) `{Decision P} (k : M A) :
  P → (bind (assert (bool_decide P)) (λ _, k)) = k.
Proof. intros HP. apply assert_true. by apply bool_decide_eq_true. Qed.

Lemma read_middle pre x post :
  read (pre ++ Some x :: post) (length pre) = Some (x, []).
Proof. unfold read. by rewrite list_lookup_middle. Qed.

Lemma place_middle pre o post x :
  place (pre ++ o :: post) (length pre) x = Some (pre ++ Some x :: post, []).
Proof.
  unfold place. rewrite assert_true.
  - unfold ret. by rewrite insert_app_r_alt // Nat.sub_diag.
  - apply bool_decide_eq_true. rewrite length_app /=. lia.
Qed.

Lemma Destroy_middle pre x post :
  Destroy (pre ++ Some x :: post) (length pre)
  = Some (pre ++ None :: post, [EvDtor x]).
Proof.
  unfold Destroy. rewrite read_middle /=.
  by rewrite insert_app_r_alt // Nat.sub_diag.
Qed.

(** Lists that end in a cons cell, re-bracketed for the next iteration. *)
Lemma snoc_middle {A} (l : list A) a k : l ++ a :: k = (l ++ [a]) ++ k.
Proof. by rewrite -app_assoc. Qed.

Lemma length_snoc {A} (l : list A) a : length (l ++ [a]) = S (length l).
Proof. rewrite length_app /=. lia. Qed.

Lemma uninitialized_value_construct_n_spec pre mid post :
  uninitialized_value_construct_n (pre ++ mid ++ post) (length pre) (length mid)
  = Some (pre ++ replicate (length mid) (Some default_value) ++ post,
          replicate (length mid) (EvValueInit default_value)).
Proof.
  revert pre. induction mid as [|o mid IH]; intros pre; [done|].
  cbn [uninitialized_value_construct_n length app].
  rewrite place_middle. cbn [emit bind].
  rewrite snoc_middle -(length_snoc pre (Some default_value)) IH.
  by rewrite -snoc_middle.
Qed.

Lemma uninitialized_copy_n_spec xs pre post dpre dmid dpost :
  length dmid = length xs →
  uninitialized_copy_n (pre ++ (Some <$> xs) ++ post) (length pre) (length xs)
    (dpre ++ dmid ++ dpost) (length dpre)
  = Some (dpre ++ (Some <$> xs) ++ dpost, EvCopyCtor <$> xs).
Proof.
  revert pre dpre dmid.
  induction xs as [|x xs IH]; intros pre dpre dmid Hlen.
  - by destruct dmid.
  - destruct dmid as [|o dmid]; [done|]. simplify_eq/=.
    rewrite read_middle. cbn [bind emit].
    rewrite place_middle.
    rewrite (snoc_middle pre) (snoc_middle dpre).
    rewrite -(length_snoc pre (Some x)) -(length_snoc dpre (Some x)).
    cbn [bind]. rewrite IH //. by rewrite -!snoc_middle.
Qed.

Lemma uninitialized_move_n_spec xs pre post dpre dmid dpost :
  length dmid = length xs →
  uninitialized_move_n (pre ++ (Some <$> xs) ++ post) (length pre) (length xs)
    (dpre ++ dmid ++ dpost) (length dpre)
  = Some ((pre ++ (Some <$> (moved_from <$> xs)) ++ post,
           dpre ++ (Some <$> xs) ++ dpost), EvMoveCtor <$> xs).
Proof.
  revert pre dpre dmid.
  induction xs as [|x xs IH]; intros pre dpre dmid Hlen.
  - by destruct dmid.
  - destruct dmid as [|o dmid]; [done|]. simplify_eq/=.
    rewrite read_middle. cbn [bind emit].
    rewrite place_middle.
    rewrite insert_app_r_alt // Nat.sub_diag /=.
    rewrite (snoc_middle pre) (snoc_middle dpre).
    rewrite -(length_snoc pre (Some (moved_from x))) -(length_snoc dpre (Some x)).
    cbn [bind]. rewrite IH //. by rewrite -!snoc_middle.
Qed.

Lemma destroy_n_spec xs pre post :
  destroy_n (pre ++ (Some <$> xs) ++ post) (length pre) (length xs)
  = Some (pre ++ replicate (length xs) None ++ post, EvDtor <$> xs).
Proof.
  revert pre. induction xs as [|x xs IH]; intros pre; [done|].
  cbn [destroy_n length fmap list_fmap app].
  rewrite Destroy_middle. cbn [bind].
  rewrite snoc_middle -(length_snoc pre None) IH.
  by rewrite -snoc_middle.
Qed.

Lemma DestroyN_spec xs pre post :
  DestroyN (pre ++ (Some <$> xs) ++ post) (length pre) (length xs)
  = Some (pre ++ replicate (length xs) None ++ post, EvDtor <$> xs).
Proof.
  revert pre. induction xs as [|x xs IH]; intros pre; [done|].
  cbn [DestroyN length fmap list_fmap app].
  rewrite Destroy_middle. cbn [bind].
  rewrite snoc_middle -(length_snoc pre None) IH.
  by rewrite -snoc_middle.
Qed.

Lemma insert_middle {A} (l : list A) a b k :
  <[length l := b]> (l ++ a :: k) = l ++ b :: k.
Proof. by rewrite insert_app_r_alt // Nat.sub_diag. Qed.

Lemma insert_at {A} (l : list A) a b k p :
  p = length l → <[p := b]> (l ++ a :: k) = l ++ b :: k.
Proof. intros ->. apply insert_middle. Qed.

Lemma insert_middle_S {A} (l : list A) a b c k :
  <[S (length l) := c]> (l ++ a :: b :: k) = l ++ a :: c :: k.
Proof.
  by rewrite -(length_snoc l a) (snoc_middle l a (b :: k)) insert_middle -snoc_middle.
Qed.

Lemma move_assign_left pre y x post :
  move_assign (pre ++ Some y :: Some x :: post) (length pre) (S (length pre))
  = Some (pre ++ Some x :: Some (moved_from x) :: post, [EvMoveAssign x]).
Proof.
  unfold move_assign.
  rewrite (snoc_middle pre) -(length_snoc pre (Some y)) read_middle.
  rewrite -snoc_middle read_middle. cbn [bind emit ret app]. do 2 f_equal.
  by rewrite (insert_middle pre) length_snoc insert_middle_S.
Qed.

Lemma move_assign_right pre x y post :
  move_assign (pre ++ Some x :: Some y :: post) (S (length pre)) (length pre)
  = Some (pre ++ Some (moved_from x) :: Some x :: post, [EvMoveAssign x]).
Proof.
  unfold move_assign.
  rewrite read_middle.
  rewrite (snoc_middle pre) -(length_snoc pre (Some x)) read_middle.
  cbn [bind emit ret app]. do 2 f_equal.
  by rewrite length_snoc -snoc_middle insert_middle_S (insert_middle pre).
Qed.

Lemma residue_last_cons y x xs :
  residue y (last (x :: xs)) = residue (moved_from x) (last xs).
Proof. rewrite last_cons. by destruct (last xs). Qed.

Lemma residue_head_snoc y x xs :
  residue y (head (xs ++ [x])) = residue (moved_from x) (head xs).
Proof. rewrite head_snoc. by destruct (head xs). Qed.

Lemma move_loop_spec xs pre y post :
  move_loop (pre ++ Some y :: (Some <$> xs) ++ post) (S (length pre)) (length xs) (length pre)
  = Some ((pre ++ (Some <$> xs) ++ Some (residue y (last xs)) :: post,
           length pre + length xs), EvMoveAssign <$> xs).
Proof.
  revert pre y. induction xs as [|x xs IH]; intros pre y.
  - cbn. by rewrite Nat.add_0_r.
  - cbn [move_loop length fmap list_fmap app].
    rewrite move_assign_left. cbn [bind].
    rewrite (snoc_middle pre) -(length_snoc pre (Some x)) IH.
    rewrite -snoc_middle length_snoc. cbn [app].
    rewrite residue_last_cons. do 3 f_equal. lia.
Qed.

Lemma move_backward_loop_spec xs pre y post :
  move_backward_loop (pre ++ (Some <$> xs) ++ Some y :: post)
    (length xs) (length pre + length xs) (S (length pre + length xs))
  = Some (pre ++ Some (residue y (head xs)) :: (Some <$> xs) ++ post,
          EvMoveAssign <$> reverse xs).
Proof.
  revert y post. induction xs as [|x xs IH] using rev_ind; intros y post; [done|].
  rewrite length_snoc reverse_snoc fmap_app -!app_assoc.
  cbn [move_backward_loop fmap list_fmap app].
  rewrite assert_decide; last lia.
  replace (S (length pre + S (length xs)) - 1) with (S (length (pre ++ (Some <$> xs))))
    by (rewrite length_app length_fmap; lia).
  replace (length pre + S (length xs) - 1) with (length (pre ++ (Some <$> xs)))
    by (rewrite length_app length_fmap; lia).
  rewrite (app_assoc pre) move_assign_right. cbn [bind].
  rewrite -app_assoc !length_app length_fmap IH.
  by rewrite residue_head_snoc.
Qed.

(** * Facts about the container operations

    Each operation is computed on [vec xs spare], the container that holds
    [xs] and has [spare] raw slots left. *)

Lemma size_vec xs spare : size_ (vec xs spare) = length xs.
Proof. done. Qed.
Lemma capacity_vec xs spare : capacity_ (data_ (vec xs spare)) = length xs + spare.
Proof. done. Qed.
Lemma buffer_vec xs spare :
  buffer_ (data_ (vec xs spare)) = (Some <$> xs) ++ replicate spare None.
Proof. done. Qed.
Lemma data_vec xs spare :
  data_ (vec xs spare)
  = {| buffer_ := (Some <$> xs) ++ replicate spare None;
       capacity_ := length xs + spare |}.
Proof. done. Qed.

Lemma Allocate_replicate n : Allocate n = replicate n None.
Proof.
  unfold Allocate. case_bool_decide; [|by replace n with 0 by lia].
  by rewrite /size_mul /sizeof /unbounded_size Nat.mul_1_r Nat.div_1_r.
Qed.

Lemma destroy_n_front xs post :
  destroy_n ((Some <$> xs) ++ post) 0 (length xs)
  = Some (replicate (length xs) None ++ post, EvDtor <$> xs).
Proof. exact (destroy_n_spec xs [] post). Qed.

Lemma DestroyN_front xs post :
  DestroyN ((Some <$> xs) ++ post) 0 (length xs)
  = Some (replicate (length xs) None ++ post, EvDtor <$> xs).
Proof. exact (DestroyN_spec xs [] post). Qed.

Lemma uninitialized_copy_n_front xs post dmid dpost :
  length dmid = length xs →
  uninitialized_copy_n ((Some <$> xs) ++ post) 0 (length xs) (dmid ++ dpost) 0
  = Some ((Some <$> xs) ++ dpost, EvCopyCtor <$> xs).
Proof. exact (uninitialized_copy_n_spec xs [] post [] dmid dpost). Qed.

Lemma replicate_split {A} (a : A) n m :
  m ≤ n → replicate n a = replicate m a ++ replicate (n - m) a.
Proof. intros. rewrite -replicate_add. f_equal. lia. Qed.

Lemma length_relocated xs :
  length (if relocate_by_move then moved_from <$> xs else xs) = length xs.
Proof. destruct relocate_by_move; by rewrite ?length_fmap. Qed.

(** Both branches of the relocation [if constexpr], from the start of one
    block to the start of another. *)
Lemma relocate_spec xs post dmid dpost :
  length dmid = length xs →
  (if relocate_by_move then
     uninitialized_move_n ((Some <$> xs) ++ post) 0 (length xs) (dmid ++ dpost) 0
   else
     let* new := uninitialized_copy_n ((Some <$> xs) ++ post) 0 (length xs)
                   (dmid ++ dpost) 0 in
     ret ((Some <$> xs) ++ post, new))
  = Some (((Some <$> (if relocate_by_move then moved_from <$> xs else xs)) ++ post,
           (Some <$> xs) ++ dpost),
          if relocate_by_move then EvMoveCtor <$> xs else EvCopyCtor <$> xs).
Proof.
  intros Hlen. destruct relocate_by_move.
  - exact (uninitialized_move_n_spec xs [] post [] dmid dpost Hlen).
  - rewrite uninitialized_copy_n_front //. cbn. by rewrite app_nil_r.
Qed.

Lemma relocation_log xs :
  (if relocate_by_move then EvMoveCtor <$> xs else EvCopyCtor <$> xs)
  ++ (EvDtor <$> (if relocate_by_move then moved_from <$> xs else xs))
  = relocation xs.
Proof. unfold relocation. by destruct relocate_by_move. Qed.

Lemma destroy_relocated xs post :
  destroy_n ((Some <$> (if relocate_by_move then moved_from <$> xs else xs)) ++ post)
    0 (length xs)
  = Some (replicate (length xs) None ++ post,
          EvDtor <$> (if relocate_by_move then moved_from <$> xs else xs)).
Proof.
  destruct relocate_by_move; [|apply destroy_n_front].
  rewrite -{1}(length_fmap moved_from xs) destroy_n_front.
  by rewrite length_fmap.
Qed.

Lemma Reserve_spec xs spare new_capacity :
  Reserve (vec xs spare) new_capacity
  = if bool_decide (new_capacity ≤ length xs + spare) then Some (vec xs spare, [])
    else Some (vec xs (new_capacity - length xs), relocation xs).
Proof.
  unfold Reserve. cbn [vec data_ size_ buffer_ capacity_ RawMemory_Capacity].
  case_bool_decide as Hcap; [done|].
  rewrite /GetAddress /RawMemory_new /with_buffer /RawMemory_Swap /=.
  rewrite Allocate_replicate (replicate_split _ new_capacity (length xs)); last lia.
  rewrite relocate_spec; last by rewrite length_replicate.
  cbn [bind]. rewrite destroy_relocated. cbn [bind ret].
  rewrite app_nil_r relocation_log. do 2 f_equal.
  unfold vec. do 2 f_equal. lia.
Qed.

Lemma read_at pre x post p :
  p = length pre → read (pre ++ Some x :: post) p = Some (x, []).
Proof. intros ->. apply read_middle. Qed.

Lemma place_at pre o post x p :
  p = length pre → place (pre ++ o :: post) p x = Some (pre ++ Some x :: post, []).
Proof. intros ->. apply place_middle. Qed.

Lemma Destroy_at pre x post p :
  p = length pre →
  Destroy (pre ++ Some x :: post) p = Some (pre ++ None :: post, [EvDtor x]).
Proof. intros ->. apply Destroy_middle. Qed.

Lemma construct_at pre o post a p :
  p = length pre →
  construct (pre ++ o :: post) p a = Some (pre ++ Some (built a) :: post, [ctor_event a]).
Proof. intros ->. unfold construct. by rewrite place_middle. Qed.

Lemma replicate_split_S {A} (a : A) n m :
  m < n → replicate n a = replicate m a ++ a :: replicate (n - S m) a.
Proof.
  intros. rewrite (replicate_split a n m); last lia.
  by replace (n - m) with (S (n - S m)) by lia.
Qed.

Lemma vec_eq buf capacity size xs spare :
  buf = (Some <$> xs) ++ replicate spare None →
  capacity = length xs + spare → size = length xs →
  {| data_ := {| buffer_ := buf; capacity_ := capacity |}; size_ := size |}
  = vec xs spare.
Proof. by intros -> -> ->. Qed.

Lemma vec_snoc xs x spare :
  {| data_ := {| buffer_ := (Some <$> xs) ++ Some x :: replicate spare None;
                 capacity_ := S (length xs + spare) |};
     size_ := S (length xs) |}
  = vec (xs ++ [x]) spare.
Proof.
  unfold vec. rewrite fmap_app -app_assoc length_snoc. done.
Qed.

(** One step of evaluation in the monad. *)
Ltac mred :=
  unfold ret, emit; cbn [bind size_ data_ capacity_ buffer_ app fst snd].
Ltac massert := repeat (rewrite assert_decide; [|lia]; rewrite ?bind_ret).

(** [EmplaceBack] on a full block: the block is replaced by one of capacity
    1, or twice the old capacity. *)
Lemma EmplaceBack_full xs a :
  EmplaceBack (vec xs 0) a
  = Some ((vec (xs ++ [built a]) (length xs - 1), length xs),
          ctor_event a :: relocation xs).
Proof.
  unfold EmplaceBack, Capacity.
  cbn [vec data_ size_ buffer_ capacity_ RawMemory_Capacity].
  rewrite bool_decide_true; last lia.
  set (c := if bool_decide (length xs = 0) then 1 else length xs * 2).
  assert (Hc : c = S (length xs + (length xs - 1))).
  { unfold c. case_bool_decide; lia. }
  rewrite /GetAddress /RawMemory_new /with_buffer /RawMemory_Swap /RawMemory_plus
    /RawMemory_at /=.
  massert.
  rewrite Allocate_replicate (replicate_split_S _ c (length xs)); last lia.
  rewrite construct_at; last by rewrite length_replicate. mred.
  rewrite relocate_spec; last by rewrite length_replicate. mred.
  rewrite destroy_relocated. mred.
  massert. mred.
  rewrite !app_nil_r relocation_log Nat.sub_0_r.
  replace (c - S (length xs)) with (length xs - 1) by lia.
  by rewrite Hc vec_snoc.
Qed.

(** [EmplaceBack] with a raw slot left: the object is built in it. *)
Lemma EmplaceBack_spare xs spare a :
  EmplaceBack (vec xs (S spare)) a
  = Some ((vec (xs ++ [built a]) spare, length xs), [ctor_event a]).
Proof.
  unfold EmplaceBack, Capacity.
  cbn [vec data_ size_ buffer_ capacity_ RawMemory_Capacity].
  rewrite bool_decide_false; last lia.
  rewrite /GetAddress /with_buffer /RawMemory_plus /RawMemory_at /=.
  massert.
  rewrite construct_at; last by rewrite length_fmap. mred.
  massert. mred.
  by rewrite Nat.sub_0_r -vec_snoc Nat.add_succ_r.
Qed.

Lemma vec_app xs ys spare :
  buffer_ (data_ (vec (xs ++ ys) spare))
  = (Some <$> xs) ++ (Some <$> ys) ++ replicate spare None.
Proof. cbn. by rewrite fmap_app -app_assoc. Qed.

Lemma PopBack_spec xs x spare :
  PopBack (vec (xs ++ [x]) spare) = Some (vec xs (S spare), [EvDtor x]).
Proof.
  unfold PopBack. rewrite /with_buffer /RawMemory_plus vec_app.
  cbn [vec data_ size_ buffer_ capacity_]. rewrite length_snoc.
  massert. massert.
  cbn [fmap list_fmap app].
  replace (S (length xs) - 1) with (length xs) by lia.
  rewrite Destroy_at; last by rewrite length_fmap. mred.
  unfold vec. do 4 f_equal. lia.
Qed.

Lemma PopBack_empty spare : PopBack (vec [] spare) = None.
Proof. done. Qed.

Lemma std_move_shift pre y ys post b e d :
  b = S (length pre) → e = S (length pre + length ys) → d = length pre →
  std_move (pre ++ Some y :: (Some <$> ys) ++ post) b e d
  = Some ((pre ++ (Some <$> ys) ++ Some (residue y (last ys)) :: post,
           length pre + length ys), EvMoveAssign <$> ys).
Proof.
  intros -> -> ->. unfold std_move. rewrite bool_decide_true; last lia.
  replace (S (length pre + length ys) - S (length pre)) with (length ys) by lia.
  apply move_loop_spec.
Qed.

(** [Erase] of the element [y] at position [length xs]. *)
Lemma Erase_spec xs y ys spare :
  Erase (vec (xs ++ y :: ys) spare) (length xs)
  = Some ((vec (xs ++ ys) (S spare), length xs),
          (EvMoveAssign <$> ys) ++ [EvDtor (residue y (last ys))]).
Proof.
  unfold Erase, cbegin, begin, end_.
  rewrite /with_buffer /RawMemory_plus vec_app.
  cbn [vec data_ size_ buffer_ capacity_].
  rewrite length_app fmap_cons -app_comm_cons. cbn [length].
  massert.
  rewrite std_move_shift; [|rewrite length_fmap; lia..]. mred.
  rewrite app_assoc Destroy_at; last by rewrite length_app !length_fmap.
  mred. massert. mred.
  do 3 f_equal; [|lia].
  apply vec_eq; rewrite ?length_app; [|lia..]. by rewrite fmap_app.
Qed.

Lemma uninitialized_move_n_at xs pre post dpre dmid dpost s n d :
  s = length pre → n = length xs → d = length dpre → length dmid = length xs →
  uninitialized_move_n (pre ++ (Some <$> xs) ++ post) s n (dpre ++ dmid ++ dpost) d
  = Some ((pre ++ (Some <$> (moved_from <$> xs)) ++ post,
           dpre ++ (Some <$> xs) ++ dpost), EvMoveCtor <$> xs).
Proof. intros -> -> ->. apply uninitialized_move_n_spec. Qed.

Lemma uninitialized_copy_n_at xs pre post dpre dmid dpost s n d :
  s = length pre → n = length xs → d = length dpre → length dmid = length xs →
  uninitialized_copy_n (pre ++ (Some <$> xs) ++ post) s n (dpre ++ dmid ++ dpost) d
  = Some (dpre ++ (Some <$> xs) ++ dpost, EvCopyCtor <$> xs).
Proof. intros -> -> ->. apply uninitialized_copy_n_spec. Qed.

Lemma destroy_n_at xs pre post p n :
  p = length pre → n = length xs →
  destroy_n (pre ++ (Some <$> xs) ++ post) p n
  = Some (pre ++ replicate (length xs) None ++ post, EvDtor <$> xs).
Proof. intros -> ->. apply destroy_n_spec. Qed.

Lemma destroy_n_front2 xs ys post n :
  n = length xs + length ys →
  destroy_n ((Some <$> xs) ++ (Some <$> ys) ++ post) 0 n
  = Some (replicate n None ++ post, EvDtor <$> (xs ++ ys)).
Proof.
  intros ->. rewrite app_assoc -fmap_app -length_app. apply destroy_n_front.
Qed.

(** [Emplace] of a full container: the new object is built first, then the
    prefix before it and the suffix after it are relocated around it. *)
Lemma Emplace_full xs ys a :
  Emplace (vec (xs ++ ys) 0) (length xs) a
  = Some ((vec (xs ++ built a :: ys) (length (xs ++ ys) - 1), length xs),
          ctor_event a :: relocation (xs ++ ys)).
Proof.
  unfold Emplace, cbegin, begin.
  rewrite /GetAddress /RawMemory_new /with_buffer /RawMemory_Swap /RawMemory_plus
    /RawMemory_Capacity vec_app.
  cbn [vec data_ size_ buffer_ capacity_]. massert.
  rewrite bool_decide_true; last lia.
  rewrite length_app Nat.sub_0_r !Nat.add_0_l.
  set (c := if bool_decide (length xs + length ys = 0) then 1
            else (length xs + length ys) * 2).
  assert (Hc : c = S (length xs + length ys + (length xs + length ys - 1))).
  { unfold c. case_bool_decide; lia. }
  clearbody c.
  rewrite Allocate_replicate (replicate_split_S _ c (length xs)); last lia.
  rewrite construct_at; last by rewrite length_replicate. mred.
  rewrite (replicate_split None (c - S (length xs)) (length ys)); last lia.
  unfold relocation. destruct relocate_by_move.
  - rewrite (uninitialized_move_n_at xs [] _ [] (replicate (length xs) None));
      [|by rewrite ?length_replicate..]. mred.
    rewrite (snoc_middle (Some <$> xs) (Some (built a))).
    rewrite (uninitialized_move_n_at ys (Some <$> (moved_from <$> xs)) _
               ((Some <$> xs) ++ [Some (built a)]) (replicate (length ys) None));
      [|rewrite ?length_app ?length_fmap ?length_replicate /=; lia..]. mred.
    rewrite destroy_n_front2; last by rewrite !length_fmap. mred. massert. mred.
    f_equal. f_equal; [|by rewrite !fmap_app !app_nil_r -app_assoc].
    f_equal. apply vec_eq; rewrite ?length_app /=; [|lia..].
    rewrite fmap_app -!app_assoc /=. do 4 f_equal. lia.
  - rewrite (uninitialized_copy_n_at xs [] _ [] (replicate (length xs) None));
      [|by rewrite ?length_replicate..]. mred.
    rewrite (snoc_middle (Some <$> xs) (Some (built a))).
    rewrite (uninitialized_copy_n_at ys (Some <$> xs) _
               ((Some <$> xs) ++ [Some (built a)]) (replicate (length ys) None));
      [|rewrite ?length_app ?length_fmap ?length_replicate /=; lia..]. mred.
    rewrite destroy_n_front2; last done. mred. massert. mred.
    f_equal. f_equal; [|by rewrite !fmap_app !app_nil_r -app_assoc].
    f_equal. apply vec_eq; rewrite ?length_app /=; [|lia..].
    rewrite fmap_app -!app_assoc /=. do 4 f_equal. lia.
Qed.

Lemma move_construct_last pre z post d s :
  s = length pre → d = S (length pre) →
  move_construct (pre ++ Some z :: None :: post) d s
  = Some (pre ++ Some (moved_from z) :: Some z :: post, [EvMoveCtor z]).
Proof.
  intros -> ->. unfold move_construct. rewrite read_middle. mred.
  rewrite (snoc_middle pre) -(length_snoc pre (Some z)) place_middle. mred.
  by rewrite -snoc_middle (insert_middle pre).
Qed.

Lemma std_move_backward_shift pre ys y post b e d :
  b = length pre → e = length pre + length ys → d = S (length pre + length ys) →
  std_move_backward (pre ++ (Some <$> ys) ++ Some y :: post) b e d
  = Some (pre ++ Some (residue y (head ys)) :: (Some <$> ys) ++ post,
          EvMoveAssign <$> reverse ys).
Proof.
  intros -> -> ->. unfold std_move_backward. rewrite bool_decide_true; last lia.
  replace (length pre + length ys - length pre) with (length ys) by lia.
  apply move_backward_loop_spec.
Qed.

(** [Emplace] before an existing element, with a raw slot left: the last
    element is move-constructed into the raw slot, the elements from the
    position on are shifted up by move assignment, and a temporary is
    move-assigned into the position. *)
Lemma Emplace_shift xs ys z spare a :
  Emplace (vec (xs ++ ys ++ [z]) (S spare)) (length xs) a
  = Some ((vec (xs ++ built a :: ys ++ [z]) spare, length xs),
          [ctor_event a; EvMoveCtor z] ++ (EvMoveAssign <$> reverse ys)
          ++ [EvMoveAssign (built a); EvDtor (moved_from (built a))]).
Proof.
  unfold Emplace, cbegin, begin, end_.
  rewrite /with_buffer /RawMemory_plus /RawMemory_at /RawMemory_Capacity vec_app.
  cbn [vec data_ size_ buffer_ capacity_]. massert.
  rewrite !length_app. cbn [length].
  rewrite bool_decide_false; last lia.
  rewrite !bool_decide_true; [|lia..]. mred. massert.
  rewrite Nat.sub_0_r !Nat.add_0_l.
  rewrite fmap_app -app_assoc. cbn [fmap list_fmap app replicate].
  rewrite (app_assoc (Some <$> xs)).
  rewrite move_construct_last; [|rewrite length_app !length_fmap; lia..]. mred.
  rewrite -app_assoc.
  rewrite std_move_backward_shift; [|rewrite !length_fmap; lia..]. mred.
  rewrite read_at; last by rewrite length_fmap. mred.
  rewrite insert_at; last by rewrite length_fmap. massert. mred.
  rewrite app_nil_r. do 3 f_equal.
  apply vec_eq; [|rewrite ?length_app /= ?length_app /=; lia..].
  by rewrite fmap_app fmap_cons fmap_app -!app_assoc -app_comm_cons -!app_assoc.
Qed.

Lemma Emplace_empty spare a :
  Emplace (vec [] (S spare)) 0 a = Some ((vec [built a] spare, 0), [ctor_event a]).
Proof. done. Qed.

(** [Emplace] at [end()] of a non-empty container with a raw slot left: the
    last element is move-constructed into the raw slot, and
    [std::move_backward] is handed the range from [end()] to [end() - 1],
    which is not a valid range.  Where that is taken as an empty range, the
    temporary is then assigned over the copy in the raw slot and the last
    element stays moved-from. *)
Lemma Emplace_end_spare xs z spare a :
  Emplace (vec (xs ++ [z]) (S spare)) (length (xs ++ [z])) a
  = if inverted_range_is_empty then
      Some ((vec (xs ++ [moved_from z; built a]) spare, length (xs ++ [z])),
            [ctor_event a; EvMoveCtor z; EvMoveAssign (built a);
             EvDtor (moved_from (built a))])
    else None.
Proof.
  unfold Emplace, cbegin, begin, end_.
  rewrite /with_buffer /RawMemory_plus /RawMemory_at /RawMemory_Capacity vec_app.
  cbn [vec data_ size_ buffer_ capacity_]. massert.
  rewrite !length_app. cbn [length].
  rewrite bool_decide_false; last lia.
  rewrite !bool_decide_true; [|lia..]. mred. massert.
  cbn [fmap list_fmap app replicate].
  rewrite move_construct_last; [|rewrite length_fmap; lia..]. mred.
  unfold std_move_backward. rewrite bool_decide_false; last lia.
  destruct inverted_range_is_empty; [|done]. mred.
  rewrite (snoc_middle (Some <$> xs)).
  rewrite read_at; last by rewrite length_snoc length_fmap; lia.
  mred. rewrite insert_at; last by rewrite length_snoc length_fmap; lia.
  massert. mred. rewrite ?Nat.sub_0_r. do 3 f_equal.
  apply vec_eq; rewrite ?length_app /=; [|lia..].
  by rewrite fmap_app -!app_assoc.
Qed.

(** * The invariant and the observations *)

Lemma omap_id_Some xs : omap id (Some <$> xs) = xs.
Proof. induction xs as [|x xs IH]; [done|]. cbn. by rewrite IH. Qed.

Lemma elements_vec xs spare : elements (vec xs spare) = xs.
Proof.
  unfold elements. cbn [vec data_ size_ buffer_].
  rewrite take_app_length'; last by rewrite length_fmap. apply omap_id_Some.
Qed.

Lemma Size_vec xs spare : Size (vec xs spare) = length xs.
Proof. done. Qed.

Lemma Capacity_vec xs spare : Capacity (vec xs spare) = length xs + spare.
Proof. done. Qed.

Lemma wf_vec xs spare : wf (vec xs spare).
Proof.
  unfold wf. cbn [vec data_ size_ buffer_ capacity_]. split_and!.
  - rewrite length_app length_fmap length_replicate. done.
  - lia.
  - intros i Hi. rewrite lookup_app_l; last by rewrite length_fmap.
    rewrite list_lookup_fmap.
    destruct (lookup_lt_is_Some_2 xs i Hi) as [x ->]. by exists x.
  - intros i Hi1 Hi2. rewrite lookup_app_r; last by rewrite length_fmap.
    rewrite length_fmap. apply lookup_replicate_2. lia.
Qed.

Lemma all_live (l : list (option T)) :
  (∀ i, i < length l → is_Some (l !! i ≫= id)) → Some <$> omap id l = l.
Proof.
  induction l as [|o l IH]; intros Hl; [done|].
  destruct (Hl 0) as [x Hx]; [cbn; lia|]. destruct o as [y|]; [|done].
  cbn. f_equal. apply IH. intros i Hi. apply (Hl (S i)). cbn. lia.
Qed.

(** Every well-formed container is some [vec xs spare]. *)
Lemma wf_inv v : wf v → v = vec (elements v) (Capacity v - Size v).
Proof.
  destruct v as [[buf cap] sz]. unfold wf, elements, Capacity, Size.
  cbn [data_ size_ buffer_ capacity_ RawMemory_Capacity].
  intros (Hlen & Hle & Hlive & Hraw).
  assert (Hsz : length (omap id (take sz buf)) = sz).
  { rewrite -(length_fmap Some) all_live.
    - rewrite length_take. lia.
    - intros i Hi. rewrite length_take in Hi.
      rewrite lookup_take_lt; [apply Hlive|]; lia. }
  apply vec_eq; [|lia..].
  rewrite all_live.
  2:{ intros i Hi. rewrite length_take in Hi.
      rewrite lookup_take_lt; [apply Hlive|]; lia. }
  rewrite -{1}(take_drop sz buf). f_equal.
  symmetry. apply replicate_as_Forall. split; [rewrite length_drop; lia|].
  apply Forall_lookup_2. intros i o. rewrite lookup_drop. intros Ho.
  assert (sz + i < cap) by (apply lookup_lt_Some in Ho; lia).
  rewrite Hraw in Ho; [congruence|lia..].
Qed.

Lemma wf_vec_iff v : wf v ↔ ∃ xs spare, v = vec xs spare.
Proof.
  split; [intros Hv; eauto using wf_inv|].
  intros (xs & spare & ->). apply wf_vec.
Qed.

(** [operator[]] reads the elements, and nothing else. *)
Lemma at_vec xs spare i :
  at_ (vec xs spare) i = (λ x, (x, [])) <$> xs !! i.
Proof.
  unfold at_, RawMemory_at, read. cbn [vec data_ size_ buffer_ capacity_].
  destruct (decide (i < length xs)) as [Hi|Hi].
  - massert. rewrite lookup_app_l; last by rewrite length_fmap.
    rewrite list_lookup_fmap.
    by destruct (lookup_lt_is_Some_2 xs i Hi) as [x ->].
  - rewrite bool_decide_false; last done. rewrite (lookup_ge_None_2 xs); [done|lia].
Qed.

Lemma at_elements v i :
  wf v → at_ v i = (λ x, (x, [])) <$> elements v !! i.
Proof. intros Hv. rewrite {1}(wf_inv v Hv). apply at_vec. Qed.

(** * The remaining operations on [vec] *)

Lemma uninitialized_value_construct_n_at pre mid post p n :
  p = length pre → n = length mid →
  uninitialized_value_construct_n (pre ++ mid ++ post) p n
  = Some (pre ++ replicate n (Some default_value) ++ post,
          replicate n (EvValueInit default_value)).
Proof. intros -> ->. apply uninitialized_value_construct_n_spec. Qed.

Lemma fmap_Some_replicate n x :
  Some <$> replicate n x = replicate n (Some x).
Proof. apply fmap_replicate. Qed.

Lemma Vector_sized_spec n :
  Vector_sized n
  = Some (vec (replicate n default_value) 0, replicate n (EvValueInit default_value)).
Proof.
  unfold Vector_sized. rewrite /GetAddress /RawMemory_new /with_buffer.
  cbn [buffer_ capacity_].
  rewrite Allocate_replicate -(app_nil_r (replicate n None)).
  rewrite (uninitialized_value_construct_n_at [] (replicate n None) []);
    [|by rewrite ?length_replicate..]. mred.
  rewrite !app_nil_r. do 2 f_equal.
  apply vec_eq; rewrite ?length_replicate ?fmap_Some_replicate ?app_nil_r //.
Qed.

Lemma Vector_copy_spec xs spare :
  Vector_copy (vec xs spare) = Some (vec xs 0, EvCopyCtor <$> xs).
Proof.
  unfold Vector_copy. rewrite /GetAddress /RawMemory_new /with_buffer.
  cbn [vec data_ size_ buffer_ capacity_].
  rewrite Allocate_replicate -(app_nil_r (replicate (length xs) None)).
  rewrite (uninitialized_copy_n_at xs [] _ [] (replicate (length xs) None) []);
    [|by rewrite ?length_replicate..]. mred.
  rewrite !app_nil_r. do 2 f_equal. apply vec_eq; rewrite ?app_nil_r //.
Qed.


Lemma Swap_spec xs spare ys spare' :
  Swap (vec xs spare) (vec ys spare') = (vec ys spare', vec xs spare).
Proof. done. Qed.

Lemma Vector_dtor_spec xs spare :
  Vector_dtor (vec xs spare) = Some ((), EvDtor <$> xs).
Proof.
  unfold Vector_dtor. rewrite /GetAddress. cbn [vec data_ size_ buffer_].
  rewrite DestroyN_front. mred. by rewrite app_nil_r.
Qed.

(** [Resize] to a larger size. *)
Lemma Resize_grow xs spare new_size :
  length xs < new_size →
  Resize (vec xs spare) new_size
  = Some (vec (xs ++ replicate (new_size - length xs) default_value)
              (length xs + spare - new_size),
          (if bool_decide (new_size ≤ length xs + spare) then [] else relocation xs)
          ++ replicate (new_size - length xs) (EvValueInit default_value)).
Proof.
  intros Hlt. unfold Resize. cbn [vec size_]. fold (vec xs spare).
  rewrite bool_decide_true; last done. rewrite Reserve_spec.
  set (k := if bool_decide (new_size ≤ length xs + spare) then spare
            else new_size - length xs).
  assert (Hk : new_size - length xs ≤ k) by (unfold k; case_bool_decide; lia).
  assert (Hk' : k - (new_size - length xs) = length xs + spare - new_size)
    by (unfold k; case_bool_decide; lia).
  replace (if bool_decide (new_size ≤ length xs + spare)
           then Some (vec xs spare, [])
           else Some (vec xs (new_size - length xs), relocation xs))
    with (Some (vec xs k,
                if bool_decide (new_size ≤ length xs + spare) then []
                else relocation xs))
    by (unfold k; by case_bool_decide).
  clearbody k. mred. rewrite /RawMemory_plus /with_buffer.
  cbn [vec data_ size_ buffer_ capacity_]. massert.
  rewrite (replicate_split None k (new_size - length xs)); last done.
  rewrite uninitialized_value_construct_n_at;
    [|by rewrite ?length_fmap ?length_replicate..]. mred.
  rewrite app_nil_r. do 2 f_equal.
  apply vec_eq; rewrite ?length_app ?length_replicate; [|lia..].
  by rewrite fmap_app fmap_Some_replicate -app_assoc Hk'.
Qed.

(** [Resize] to a smaller size. *)
Lemma Resize_shrink xs spare new_size :
  new_size < length xs →
  Resize (vec xs spare) new_size
  = Some (vec (take new_size xs) (length xs - new_size + spare),
          EvDtor <$> drop new_size xs).
Proof.
  intros Hlt. unfold Resize. cbn [vec size_ data_ buffer_ capacity_].
  rewrite bool_decide_false; last lia. rewrite bool_decide_true; last done.
  rewrite /RawMemory_plus /with_buffer. cbn [capacity_ buffer_]. massert.
  rewrite -{1}(take_drop new_size xs) fmap_app -app_assoc.
  rewrite destroy_n_at; [|by rewrite ?length_fmap ?length_take ?length_drop; lia..].
  mred. rewrite app_nil_r. do 2 f_equal.
  apply vec_eq; rewrite ?length_take ?length_drop; [|lia..].
  by rewrite replicate_add.
Qed.

(** [Resize] to the current size. *)
Lemma Resize_same xs spare :
  Resize (vec xs spare) (length xs) = Some (vec xs spare, []).
Proof.
  unfold Resize. cbn [vec size_ data_].
  by rewrite !bool_decide_false; [|lia..].
Qed.

(** * Copy assignment between two different objects *)

Lemma at_vec_middle ys y zs spare i :
  i = length ys → at_ (vec (ys ++ y :: zs) spare) i = Some (y, []).
Proof. intros ->. by rewrite at_vec list_lookup_middle. Qed.

Lemma copy_assign_elem_at pre y post capacity i x :
  i = length pre → i < capacity →
  copy_assign_elem {| buffer_ := pre ++ Some y :: post; capacity_ := capacity |} i x
  = Some ({| buffer_ := pre ++ Some x :: post; capacity_ := capacity |},
          [EvCopyAssign x]).
Proof.
  intros -> Hi. unfold copy_assign_elem, RawMemory_at, with_buffer.
  cbn [buffer_ capacity_]. massert. rewrite read_middle. mred.
  by rewrite insert_middle.
Qed.

Lemma assign_loop_spec olds : ∀ news pre post capacity ys zs spare,
  length news = length olds → length ys = length pre →
  length pre + length olds ≤ capacity →
  assign_loop {| buffer_ := pre ++ (Some <$> olds) ++ post; capacity_ := capacity |}
    (vec (ys ++ news ++ zs) spare) (length pre) (length olds)
  = Some ({| buffer_ := pre ++ (Some <$> news) ++ post; capacity_ := capacity |},
          EvCopyAssign <$> news).
Proof.
  induction olds as [|o olds IH]; intros news pre post capacity ys zs spare Hn Hy Hc.
  - by destruct news.
  - destruct news as [|y news]; [done|]. cbn in Hn, Hc.
    cbn [assign_loop length fmap list_fmap app].
    rewrite at_vec_middle; last done. mred.
    rewrite copy_assign_elem_at; [|done|lia]. mred.
    rewrite (snoc_middle pre) (snoc_middle ys) -(length_snoc pre (Some y)).
    rewrite IH; [|rewrite ?length_snoc; lia..].
    by rewrite -snoc_middle.
Qed.

Lemma assign_loop_front olds news post capacity ys zs spare n :
  ys = news ++ zs →
  n = length olds → length news = length olds → length olds ≤ capacity →
  assign_loop {| buffer_ := (Some <$> olds) ++ post; capacity_ := capacity |}
    (vec ys spare) 0 n
  = Some ({| buffer_ := (Some <$> news) ++ post; capacity_ := capacity |},
          EvCopyAssign <$> news).
Proof.
  intros -> -> Hn Hc.
  by apply (assign_loop_spec olds news [] post capacity [] zs spare).
Qed.

Lemma split_at {A} (l : list A) n :
  n ≤ length l → ∃ l1 l2, l = l1 ++ l2 ∧ length l1 = n.
Proof.
  intros Hn. exists (take n l), (drop n l).
  rewrite take_drop length_take. split; [done|lia].
Qed.

(** The right-hand side needs more room than [this] has: copy and swap. *)
Lemma copy_assign_from_realloc xs spare ys spare' :
  length xs + spare < length ys →
  copy_assign_from (vec xs spare) (vec ys spare')
  = Some (vec ys 0, (EvCopyCtor <$> ys) ++ (EvDtor <$> xs)).
Proof.
  intros Hlt. unfold copy_assign_from.
  rewrite {1}/vec /RawMemory_Capacity. cbn [data_ capacity_ size_].
  rewrite bool_decide_true; last done.
  rewrite Vector_copy_spec. mred. rewrite Swap_spec Vector_dtor_spec. mred.
  by rewrite app_nil_r.
Qed.

(** The right-hand side is shorter: assign over the prefix, destroy the rest. *)
Lemma copy_assign_from_shrink xs spare ys spare' :
  length ys < length xs →
  copy_assign_from (vec xs spare) (vec ys spare')
  = Some (vec ys (length xs - length ys + spare),
          (EvCopyAssign <$> ys) ++ (EvDtor <$> drop (length ys) xs)).
Proof.
  intros Hlt.
  destruct (split_at xs (length ys)) as (xs1 & xs2 & -> & Hxs1); [lia|].
  rewrite drop_app_length' //. rewrite length_app in Hlt |- *.
  unfold copy_assign_from.
  rewrite /RawMemory_Capacity /RawMemory_plus /with_buffer.
  rewrite !size_vec !capacity_vec !data_vec length_app.
  rewrite bool_decide_false; last lia. rewrite bool_decide_true; last done.
  rewrite fmap_app -app_assoc.
  rewrite (assign_loop_front xs1 ys _ _ ys []);
    [|rewrite ?app_nil_r; done || lia..].
  mred. massert.
  rewrite (destroy_n_at xs2 (Some <$> ys)); [|rewrite ?length_fmap; lia..].
  mred. rewrite !app_nil_r. do 2 f_equal.
  apply vec_eq; [|lia..].
  rewrite -replicate_add. do 3 f_equal. lia.
Qed.

(** The right-hand side fits and is not shorter: assign over the live
    elements, copy-construct the others into raw slots. *)
Lemma copy_assign_from_extend xs spare ys spare' :
  length xs ≤ length ys → length ys ≤ length xs + spare →
  copy_assign_from (vec xs spare) (vec ys spare')
  = Some (vec ys (length xs + spare - length ys),
          (EvCopyAssign <$> take (length xs) ys)
          ++ (EvCopyCtor <$> drop (length xs) ys)).
Proof.
  intros Hle Hcap.
  destruct (split_at ys (length xs)) as (ys1 & ys2 & -> & Hys1); [lia|].
  rewrite take_app_length' // drop_app_length' //.
  rewrite length_app in Hle, Hcap |- *.
  unfold copy_assign_from.
  rewrite /RawMemory_Capacity /RawMemory_plus /with_buffer.
  rewrite !size_vec !capacity_vec !buffer_vec !data_vec length_app.
  rewrite (bool_decide_false (_ < length ys1 + _)); last lia.
  rewrite (bool_decide_false (_ < length xs)); last lia.
  rewrite (fmap_app _ ys1) -app_assoc.
  rewrite (assign_loop_front xs ys1 _ _ (ys1 ++ ys2) ys2); [|done || lia..].
  mred. massert.
  rewrite (replicate_split None spare (length ys2)); last lia.
  rewrite (uninitialized_copy_n_at ys2 (Some <$> ys1) _
             (Some <$> ys1) (replicate (length ys2) None));
    [|rewrite ?length_fmap ?length_replicate; lia..].
  mred. rewrite !app_nil_r. do 2 f_equal.
  apply vec_eq; rewrite ?length_app; [|lia..].
  rewrite fmap_app -app_assoc. do 3 f_equal. lia.
Qed.

Lemma copy_assign_from_vec xs spare ys spare' :
  ∃ spare'' log,
    copy_assign_from (vec xs spare) (vec ys spare') = Some (vec ys spare'', log).
Proof.
  destruct (decide (length xs + spare < length ys)).
  { rewrite copy_assign_from_realloc //. eauto. }
  destruct (decide (length ys < length xs)).
  { rewrite copy_assign_from_shrink //. eauto. }
  rewrite copy_assign_from_extend; [eauto|lia..].
Qed.

(** * The container as a sequence *)


Lemma EmplaceBack_vec xs spare a :
  ∃ spare' log,
    EmplaceBack (vec xs spare) a
    = Some ((vec (xs ++ [built a]) spare', length xs), log).
Proof.
  destruct spare as [|spare].
  - rewrite EmplaceBack_full. eauto.
  - rewrite EmplaceBack_spare. eauto.
Qed.

Lemma push_back_EmplaceBack v a :
  push_back v a = let* (v', _) := EmplaceBack v a in ret v'.
Proof. by destruct a. Qed.

Lemma push_back_vec xs spare a :
  ∃ spare' log,
    push_back (vec xs spare) a = Some (vec (xs ++ [built a]) spare', log).
Proof.
  destruct (EmplaceBack_vec xs spare a) as (spare' & log & Heq).
  rewrite push_back_EmplaceBack Heq. mred. eauto.
Qed.

Lemma push_back_all_vec args : ∀ xs spare,
  ∃ spare' log,
    push_back_all (vec xs spare) args
    = Some (vec (xs ++ (built <$> args)) spare', log).
Proof.
  induction args as [|a args IH]; intros xs spare.
  - exists spare, []. by rewrite app_nil_r.
  - destruct (push_back_vec xs spare a) as (spare1 & log1 & Heq1).
    destruct (IH (xs ++ [built a]) spare1) as (spare2 & log2 & Heq2).
    cbn [push_back_all]. rewrite Heq1. mred. rewrite Heq2.
    rewrite -app_assoc. eauto.
Qed.


(** * Growth *)

Lemma Emplace_full_at xs pos a :
  pos ≤ length xs →
  Emplace (vec xs 0) pos a
  = Some ((vec (take pos xs ++ built a :: drop pos xs) (length xs - 1), pos),
          ctor_event a :: relocation xs).
Proof.
  intros Hpos.
  destruct (split_at xs pos) as (xs1 & xs2 & -> & <-); [done|].
  by rewrite Emplace_full take_app_length drop_app_length.
Qed.

Lemma push_back_full xs a :
  push_back (vec xs 0) a
  = Some (vec (xs ++ [built a]) (length xs - 1), ctor_event a :: relocation xs).
Proof.
  rewrite push_back_EmplaceBack EmplaceBack_full. mred. by rewrite app_nil_r.
Qed.

Lemma push_back_spare xs spare a :
  push_back (vec xs (S spare)) a = Some (vec (xs ++ [built a]) spare, [ctor_event a]).
Proof. by rewrite push_back_EmplaceBack EmplaceBack_spare. Qed.

(** * Erasure *)

Lemma Erase_at xs pos y spare :
  xs !! pos = Some y →
  Erase (vec xs spare) pos
  = Some ((vec (take pos xs ++ drop (S pos) xs) (S spare), pos),
          (EvMoveAssign <$> drop (S pos) xs)
          ++ [EvDtor (residue y (last (drop (S pos) xs)))]).
Proof.
  intros Hy. rewrite -{1}(take_drop_middle xs pos y Hy).
  assert (length (take pos xs) = pos) as Hlen.
  { apply length_take_le, Nat.lt_le_incl. by eapply lookup_lt_Some. }
  by rewrite -{3}Hlen Erase_spec Hlen.
Qed.

Lemma read_raw xs spare p :
  length xs ≤ p → read ((Some <$> xs) ++ replicate spare None) p = None.
Proof.
  intros Hp. unfold read. rewrite lookup_app_r length_fmap; [|done].
  destruct (replicate spare None !! (p - length xs)) as [o|] eqn:Ho; [|done].
  by apply lookup_replicate in Ho as [-> _].
Qed.

Lemma Erase_out_of_range xs pos spare :
  length xs ≤ pos → Erase (vec xs spare) pos = None.
Proof.
  intros Hpos. unfold Erase, cbegin, begin, end_.
  rewrite /with_buffer /RawMemory_plus !size_vec !capacity_vec !buffer_vec. massert.
  unfold std_move. rewrite bool_decide_false; last lia.
  destruct inverted_range_is_empty; [|done]. mred.
  unfold Destroy. by rewrite read_raw; [|lia].
Qed.

(** C7.  [Erase] at a position of [[begin, end)] move-assigns each element
    after the position to the slot before it, in increasing order, then
    destroys the object left in the last live slot, which becomes raw;
    [Size()] drops by one, the capacity is unchanged, and the returned
    position is the erased one, where the element that followed now resides
    (it is [end()] when the last element was erased). *)
Theorem C7_erase (v : Vector) (pos : nat) :
  wf v → pos < Size v →
  ∃ v' y,
    elements v !! pos = Some y ∧
    Erase v pos
    = Some (v', pos,
            (EvMoveAssign <$> drop (S pos) (elements v))
            ++ [EvDtor (residue y (last (drop (S pos) (elements v))))]) ∧
    wf v' ∧ Size v' = Size v - 1 ∧ Capacity v' = Capacity v ∧
    elements v' = take pos (elements v) ++ drop (S pos) (elements v) ∧
    elements v' !! pos = elements v !! S pos ∧
    buffer_ (data_ v') !! (Size v - 1) = Some None.
Proof.
  intros (xs & spare & ->)%wf_vec_iff Hpos.
  rewrite Size_vec in Hpos |- *. rewrite Capacity_vec elements_vec.
  destruct (lookup_lt_is_Some_2 xs pos Hpos) as [y Hy].
  exists (vec (take pos xs ++ drop (S pos) xs) (S spare)), y.
  assert (length (take pos xs ++ drop (S pos) xs) = length xs - 1) as Hlen
    by (rewrite length_app length_take length_drop; lia).
  rewrite (Erase_at xs pos y) // elements_vec Size_vec Capacity_vec Hlen.
  split_and!; [done|done|apply wf_vec|done|lia|done| |].
  - rewrite lookup_app_r length_take; [|lia].
    rewrite lookup_drop. f_equal. lia.
  - rewrite buffer_vec lookup_app_r length_fmap Hlen; [|lia].
    by rewrite Nat.sub_diag.
Qed.

(** * Insertion at a position *)

Lemma Emplace_defined xs pos spare a :
  pos ≤ length xs → pos < length xs ∨ spare = 0 ∨ xs = [] →
  ∃ spare' log,
    Emplace (vec xs spare) pos a
    = Some ((vec (take pos xs ++ built a :: drop pos xs) spare', pos), log).
Proof.
  intros Hpos Hcase. destruct spare as [|spare].
  { rewrite Emplace_full_at //. eauto. }
  destruct Hcase as [Hlt|[?| ->]]; [|done|].
  - destruct (split_at xs pos) as (xs1 & xs2 & -> & <-); [done|].
    rewrite take_app_length drop_app_length.
    destruct xs2 as [|z ys _] using rev_ind.
    { rewrite length_app /= in Hlt. lia. }
    rewrite Emplace_shift. eauto.
  - cbn in Hpos. replace pos with 0 by lia. rewrite Emplace_empty. eauto.
Qed.

(** [Insert] within the cases in which it is defined, followed by [Erase]
    at the returned position, gives back the size and the elements. *)
Lemma Insert_Erase_roundtrip v pos x :
  wf v → pos ≤ Size v → pos < Size v ∨ Size v = Capacity v ∨ Size v = 0 →
  ∃ v1 log1 v2 log2,
    Insert v pos x = Some (v1, pos, log1) ∧
    Erase v1 pos = Some (v2, pos, log2) ∧
    Size v2 = Size v ∧ elements v2 = elements v.
Proof.
  intros (xs & spare & ->)%wf_vec_iff Hpos Hcase.
  rewrite Size_vec in Hpos, Hcase |- *. rewrite Capacity_vec in Hcase.
  destruct (Emplace_defined xs pos spare (ByCopy x)) as (spare' & log & Heq);
    [done| |].
  { destruct Hcase as [?|[?|?]]; [by left|right; left; lia|].
    right; right. by apply nil_length_inv. }
  unfold Insert. rewrite Heq.
  assert (length (take pos xs) = pos) as Hlen by by apply length_take_le.
  eexists _, _, _, _. split; [done|].
  rewrite -{3}Hlen Erase_spec Hlen take_drop. split; [done|].
  by rewrite Size_vec !elements_vec.
Qed.

Lemma Emplace_end_full xs a :
  Emplace (vec xs 0) (length xs) a = EmplaceBack (vec xs 0) a.
Proof.
  rewrite -{1}(app_nil_r xs) Emplace_full EmplaceBack_full.
  rewrite -{1}(app_nil_r xs) length_app /= Nat.add_0_r. by rewrite !app_nil_r.
Qed.

Lemma Emplace_end_empty spare a :
  Emplace (vec [] spare) 0 a = EmplaceBack (vec [] spare) a.
Proof.
  destruct spare as [|spare]; [apply (Emplace_end_full [])|].
  by rewrite Emplace_empty EmplaceBack_spare.
Qed.

(** [Emplace] at [end()] does what [EmplaceBack] does when growth is
    required or the container is empty. *)
Lemma Emplace_end_EmplaceBack v a :
  wf v → Size v = Capacity v ∨ Size v = 0 →
  Emplace v (Size v) a = EmplaceBack v a.
Proof.
  intros (xs & spare & ->)%wf_vec_iff. rewrite Size_vec Capacity_vec.
  intros [Hfull|Hnil].
  - replace spare with 0 by lia. apply Emplace_end_full.
  - apply nil_length_inv in Hnil as ->. apply Emplace_end_empty.
Qed.

(** * Objects in a store *)

Lemma RawMemory_move_assign_id d rd : RawMemory_move_assign d rd = (rd, d).
Proof. by destruct d, rd. Qed.

Lemma Swap_id v other : Swap v other = (other, v).
Proof. by destruct v as [[??]?], other as [[??]?]. Qed.

Lemma deref_lookup σ a v : σ !! a = Some v → deref σ a = Some (v, []).
Proof. unfold deref. by intros ->. Qed.

(** * Moves and self-assignment *)

Lemma move_assign_vec_spec (σ : gmap nat Vector) this rhs w v :
  σ !! this = Some w → σ !! rhs = Some v →
  move_assign_vec σ this rhs = Some (<[rhs := w]> (<[this := v]> σ), []).
Proof.
  intros Hw Hv. unfold move_assign_vec.
  rewrite (deref_lookup σ this w) // (deref_lookup σ rhs v) //. mred.
  rewrite RawMemory_move_assign_id. mred.
  by destruct w as [[??]?], v as [[??]?].
Qed.

(** * Further properties of the operations *)

(** X2.  Copy construction copy-constructs each element of the source once,
    in order; the copy has the elements of the source, and its capacity is
    the size of the source, not its capacity. *)
Theorem X2_copy_construct (other : Vector) :
  wf other →
  ∃ v,
    Vector_copy other = Some (v, EvCopyCtor <$> elements other) ∧
    wf v ∧ elements v = elements other ∧
    Size v = Size other ∧ Capacity v = Size other.
Proof.
  intros (xs & spare & ->)%wf_vec_iff. exists (vec xs 0).
  rewrite Vector_copy_spec !elements_vec !Size_vec Capacity_vec.
  split_and!; [done|apply wf_vec|done|done|lia].
Qed.

Lemma copy_assign_from_log xs spare ys spare' :
  copy_assign_from (vec xs spare) (vec ys spare')
  = Some (vec ys (if bool_decide (length xs + spare < length ys) then 0
                  else length xs + spare - length ys),
          if bool_decide (length xs + spare < length ys)
          then (EvCopyCtor <$> ys) ++ (EvDtor <$> xs)
          else (EvCopyAssign <$> take (length xs) ys)
               ++ (EvDtor <$> drop (length ys) xs)
               ++ (EvCopyCtor <$> drop (length xs) ys)).
Proof.
  case_bool_decide as Hcap; [by apply copy_assign_from_realloc|].
  destruct (decide (length ys < length xs)) as [Hlt|Hge].
  - rewrite copy_assign_from_shrink //.
    rewrite take_ge; last lia. rewrite (drop_ge ys); last lia.
    rewrite app_nil_r. do 3 f_equal. lia.
  - rewrite copy_assign_from_extend; [|lia..].
    by rewrite (drop_ge xs); last lia.
Qed.

(** X3.  Copy assignment between two different objects gives [this] the
    elements of [rhs] and leaves [rhs] as it was.  When [rhs] has more
    elements than [this] has capacity, a copy is built and swapped in: the
    capacity becomes the size of [rhs], every element of [rhs] is
    copy-constructed and every old element destroyed.  Otherwise the block
    is kept: the common prefix is copy-assigned, then the excess old
    elements are destroyed or the further elements of [rhs] are
    copy-constructed into raw slots. *)
Theorem X3_copy_assign (σ : gmap nat Vector) (this rhs : nat) (v r : Vector) :
  σ !! this = Some v → σ !! rhs = Some r → this ≠ rhs → wf v → wf r →
  ∃ v',
    copy_assign σ this rhs
    = Some (<[this := v']> σ,
            if bool_decide (Capacity v < Size r)
            then (EvCopyCtor <$> elements r) ++ (EvDtor <$> elements v)
            else (EvCopyAssign <$> take (Size v) (elements r))
                 ++ (EvDtor <$> drop (Size r) (elements v))
                 ++ (EvCopyCtor <$> drop (Size v) (elements r))) ∧
    (<[this := v']> σ) !! rhs = Some r ∧
    wf v' ∧ elements v' = elements r ∧
    Capacity v' = if bool_decide (Capacity v < Size r) then Size r else Capacity v.
Proof.
  intros Hv Hr Hne (xs & spare & ->)%wf_vec_iff (ys & spare' & ->)%wf_vec_iff.
  eexists (vec ys _). unfold copy_assign.
  rewrite (deref_lookup σ this _ Hv) (deref_lookup σ rhs _ Hr). mred.
  rewrite bool_decide_true; last done.
  rewrite copy_assign_from_log. mred.
  rewrite !elements_vec !Size_vec !Capacity_vec !app_nil_r.
  split_and!; [done|by rewrite lookup_insert_ne|apply wf_vec|done|].
  case_bool_decide; lia.
Qed.

(** X5.  [PopBack] on an empty container has no defined result.  On a
    non-empty one it destroys the last element and nothing else: the other
    elements and the capacity are kept. *)
Theorem X5_pop_back (v : Vector) :
  wf v →
  if bool_decide (Size v = 0) then PopBack v = None
  else ∃ v' x,
    last (elements v) = Some x ∧
    PopBack v = Some (v', [EvDtor x]) ∧
    wf v' ∧ elements v' = take (Size v - 1) (elements v) ∧
    Capacity v' = Capacity v.
Proof.
  intros (xs & spare & ->)%wf_vec_iff.
  rewrite !elements_vec !Size_vec !Capacity_vec.
  destruct xs as [|x xs _] using rev_ind; [done|].
  rewrite bool_decide_false; last by rewrite length_snoc.
  exists (vec xs (S spare)), x.
  rewrite last_snoc PopBack_spec elements_vec Capacity_vec !length_snoc.
  replace (S (length xs) - 1) with (length xs) by lia.
  rewrite take_app_length. split_and!; [done|done|apply wf_vec|done|lia].
Qed.


(** X7.  [Erase] at a position from [end()] on has no defined result,
    however the library treats an inverted range: nothing is erased at
    [end()]. *)
Theorem X7_erase_out_of_range (v : Vector) (pos : nat) :
  wf v → Size v ≤ pos → Erase v pos = None.
Proof.
  intros (xs & spare & ->)%wf_vec_iff. rewrite Size_vec.
  apply Erase_out_of_range.
Qed.

(** X8.  [operator[]] performs no element operation; it reads element
    [index] when [index < Size()] and has no defined result otherwise, also
    for an index below the capacity. *)
Theorem X8_index (v : Vector) (index : nat) :
  wf v →
  at_ v index
  = if bool_decide (index < Size v)
    then (λ x, (x, [])) <$> elements v !! index
    else None.
Proof.
  intros (xs & spare & ->)%wf_vec_iff.
  rewrite at_vec elements_vec Size_vec. case_bool_decide; [done|].
  rewrite (lookup_ge_None_2 xs); [done|lia].
Qed.


(** X12.  [Swap] exchanges two objects without any element operation, and
    the same call again gives the store back. *)
Theorem X12_swap (σ : gmap nat Vector) (a b : nat) (v w : Vector) :
  σ !! a = Some v → σ !! b = Some w →
  ∃ σ',
    Swap_at σ a b = Some (σ', []) ∧
    σ' = <[b := v]> (<[a := w]> σ) ∧
    σ' !! a = Some w ∧ σ' !! b = Some v ∧
    Swap_at σ' a b = Some (σ, []).
Proof.
  intros Hv Hw.
  assert (∀ (τ : gmap nat Vector) (p q : Vector),
            τ !! a = Some p → τ !! b = Some q →
            Swap_at τ a b = Some (<[b := p]> (<[a := q]> τ), [])) as Hswap.
  { intros τ p q Hp Hq. unfold Swap_at.
    rewrite (deref_lookup τ a p) // (deref_lookup τ b q) //. mred.
    by rewrite Swap_id. }
  assert ((<[b := v]> (<[a := w]> σ)) !! a = Some w) as Ha.
  { destruct (decide (a = b)) as [->|Hne].
    - rewrite lookup_insert_eq. congruence.
    - by rewrite lookup_insert_ne // lookup_insert_eq. }
  assert ((<[b := v]> (<[a := w]> σ)) !! b = Some v) as Hb
    by by rewrite lookup_insert_eq.
  exists (<[b := v]> (<[a := w]> σ)).
  split_and!; [by apply Hswap|done|done|done|].
  rewrite (Hswap _ w v) //. do 2 f_equal. apply map_eq. intros c.
  destruct (decide (c = b)) as [->|Hcb]; [by rewrite lookup_insert_eq|].
  rewrite lookup_insert_ne //.
  destruct (decide (c = a)) as [->|Hca]; [by rewrite lookup_insert_eq|].
  by rewrite !lookup_insert_ne.
Qed.

(** X13.  Move assignment of an object to itself changes nothing and
    performs no element operation. *)
Theorem X13_self_move_assign (σ : gmap nat Vector) (a : nat) (v : Vector) :
  σ !! a = Some v → move_assign_vec σ a a = Some (σ, []).
Proof.
  intros Hv. rewrite (move_assign_vec_spec σ a a v v) //.
  by rewrite insert_insert_eq insert_id.
Qed.

(** X14.  The destructor destroys every live element exactly once, from the
    first to the last, and performs no other element operation. *)
Theorem X14_destructor (v : Vector) :
  wf v → Vector_dtor v = Some ((), EvDtor <$> elements v).
Proof.
  intros (xs & spare & ->)%wf_vec_iff. by rewrite Vector_dtor_spec elements_vec.
Qed.




(** * Constructions and destructions *)

Lemma balance_cons e l : balance (e :: l) = (live_change e + balance l)%Z.
Proof. done. Qed.

Lemma balance_app l1 l2 : balance (l1 ++ l2) = (balance l1 + balance l2)%Z.
Proof.
  induction l1 as [|e l1 IH]; [done|].
  rewrite -app_comm_cons !balance_cons IH. lia.
Qed.

Lemma balance_fmap (f : T → Event) (c : Z) xs :
  (∀ x, live_change (f x) = c) → balance (f <$> xs) = (c * Z.of_nat (length xs))%Z.
Proof.
  intros Hf. induction xs as [|x xs IH]; [cbn; lia|].
  rewrite fmap_cons balance_cons Hf IH. cbn [length]. lia.
Qed.

Lemma balance_replicate n e : balance (replicate n e) = (live_change e * Z.of_nat n)%Z.
Proof.
  induction n as [|n IH]; [cbn; lia|].
  rewrite replicate_S balance_cons IH. lia.
Qed.

Lemma live_change_ctor_event a : live_change (ctor_event a) = 1%Z.
Proof. by destruct a. Qed.

Lemma balance_relocation xs : balance (relocation xs) = 0%Z.
Proof.
  unfold relocation. destruct relocate_by_move; rewrite balance_app.
  - rewrite (balance_fmap EvMoveCtor 1) // (balance_fmap EvDtor (-1)) //.
    rewrite length_fmap. lia.
  - rewrite (balance_fmap EvCopyCtor 1) // (balance_fmap EvDtor (-1)) //. lia.
Qed.

Lemma balance_dtors xs : balance (EvDtor <$> xs) = (- Z.of_nat (length xs))%Z.
Proof. rewrite (balance_fmap EvDtor (-1)); [lia|done]. Qed.

Lemma balance_move_assigns xs : balance (EvMoveAssign <$> xs) = 0%Z.
Proof. by rewrite (balance_fmap EvMoveAssign 0). Qed.

Ltac bal :=
  rewrite ?app_nil_r;
  do 2 (repeat first
          [ rewrite balance_app | rewrite balance_cons | rewrite balance_relocation
          | rewrite balance_dtors | rewrite balance_move_assigns
          | rewrite balance_replicate | rewrite live_change_ctor_event
          | rewrite length_app | rewrite length_snoc | rewrite length_take
          | rewrite length_drop | rewrite length_replicate ];
        cbn [balance foldr live_change length]).

(** A call on a container keeps it well-formed, and the live objects it
    adds are its constructor calls minus its destructor calls. *)
Lemma call_balance xs spare c v' log :
  call (vec xs spare) c = Some (v', log) →
  ∃ xs' spare', v' = vec xs' spare' ∧
    (Z.of_nat (length xs) + balance log = Z.of_nat (length xs'))%Z.
Proof.
  destruct c as [n|n|a|pos a|pos|]; cbn [call].
  - rewrite Reserve_spec. case_bool_decide; intros [= <- <-]; eexists _, _;
      (split; [done|]); bal; lia.
  - destruct (Nat.lt_trichotomy (length xs) n) as [Hlt|[<-|Hgt]].
    + rewrite Resize_grow //. intros [= <- <-]. eexists _, _. split; [done|].
      case_bool_decide; bal; lia.
    + rewrite Resize_same. intros [= <- <-]. eexists _, _. split; [done|].
      bal. lia.
    + rewrite Resize_shrink //. intros [= <- <-]. eexists _, _. split; [done|].
      bal. lia.
  - destruct spare as [|spare].
    + rewrite push_back_full. intros [= <- <-]. eexists _, _. split; [done|].
      bal. lia.
    + rewrite push_back_spare. intros [= <- <-]. eexists _, _. split; [done|].
      bal. lia.
  - rewrite Size_vec. case_bool_decide as Hpos; [|done]. rewrite bind_ret.
    destruct (split_at xs pos) as (xs1 & xs2 & -> & <-); [done|].
    destruct spare as [|spare].
    { rewrite Emplace_full. mred. intros [= <- <-]. eexists _, _. split; [done|].
      bal. lia. }
    destruct xs2 as [|z ys _] using rev_ind.
    + rewrite app_nil_r. destruct xs1 as [|z xs1 _] using rev_ind.
      { rewrite Emplace_empty. mred. intros [= <- <-]. eexists _, _.
        split; [done|]. bal. lia. }
      rewrite Emplace_end_spare. destruct inverted_range_is_empty; [|done].
      mred. intros [= <- <-]. eexists _, _. split; [done|]. bal. lia.
    + rewrite Emplace_shift. mred. intros [= <- <-]. eexists _, _.
      split; [done|]. bal. lia.
  - destruct (xs !! pos) as [y|] eqn:Hy.
    + rewrite (Erase_at xs pos y) //. mred. intros [= <- <-]. eexists _, _.
      split; [done|]. apply lookup_lt_Some in Hy. bal. lia.
    + by rewrite Erase_out_of_range; [|by apply lookup_ge_None].
  - destruct xs as [|x xs _] using rev_ind; [done|].
    rewrite PopBack_spec. intros [= <- <-]. eexists _, _. split; [done|].
    bal. lia.
Qed.

Lemma run_balance calls : ∀ xs spare v' log,
  run (vec xs spare) calls = Some (v', log) →
  ∃ xs' spare', v' = vec xs' spare' ∧
    (Z.of_nat (length xs) + balance log = Z.of_nat (length xs'))%Z.
Proof.
  induction calls as [|c calls IH]; intros xs spare v' log; cbn [run].
  - intros [= <- <-]. eexists _, _. split; [done|]. cbn. lia.
  - destruct (call (vec xs spare) c) as [[v1 log1]|] eqn:Hc; [|done]. mred.
    destruct (call_balance _ _ _ _ _ Hc) as (xs1 & spare1 & -> & Hb1).
    destruct (run (vec xs1 spare1) calls) as [[v2 log2]|] eqn:Hr; [|done].
    intros [= <- <-].
    destruct (IH _ _ _ _ Hr) as (xs2 & spare2 & -> & Hb2).
    eexists _, _. split; [done|]. rewrite balance_app. lia.
Qed.

(** * Every machine

    From here on the machine is arbitrary.  A call that allocates for a
    count whose byte size fits does what it does on the machine whose
    [size_t] never wraps. *)

Section any_machine.
Context {SZ : SizeT}.

Lemma Allocate_fits n : fits n → Allocate n = replicate n None.
Proof.
  unfold fits, Allocate. intros ->.
  case_bool_decide; [|by replace n with 0 by lia].
  rewrite Nat.div_mul //. pose proof sizeof_pos. lia.
Qed.

Lemma Allocate_raw n : Allocate n = replicate (length (Allocate n)) None.
Proof. unfold Allocate. case_bool_decide; [|done]. by rewrite length_replicate. Qed.

Lemma RawMemory_new_fits n :
  fits n → RawMemory_new n = RawMemory_new (SZ := unbounded_size) n.
Proof. intros. by rewrite /RawMemory_new Allocate_fits // Allocate_replicate. Qed.

Lemma Vector_sized_fits n :
  fits n → Vector_sized n = Vector_sized (SZ := unbounded_size) n.
Proof. intros. unfold Vector_sized. by rewrite RawMemory_new_fits. Qed.

Lemma Reserve_fits v n :
  (Capacity v < n → fits n) →
  Reserve v n = Reserve (SZ := unbounded_size) v n.
Proof.
  intros Hfits. unfold Reserve. case_bool_decide as Hcap; [done|].
  rewrite RawMemory_new_fits //. apply Hfits. unfold Capacity. lia.
Qed.

Lemma Resize_fits v n :
  (Capacity v < n → fits n) →
  Resize v n = Resize (SZ := unbounded_size) v n.
Proof. intros. unfold Resize. by rewrite Reserve_fits. Qed.

Lemma EmplaceBack_fits v a :
  (Size v = Capacity v → fits (grown_capacity v)) →
  EmplaceBack v a = EmplaceBack (SZ := unbounded_size) v a.
Proof.
  intros Hfits. unfold EmplaceBack. case_bool_decide as Hfull; [|done].
  rewrite RawMemory_new_fits //. exact (Hfits Hfull).
Qed.

Lemma Emplace_fits v pos a :
  (Size v = Capacity v → fits (grown_capacity v)) →
  Emplace v pos a = Emplace (SZ := unbounded_size) v pos a.
Proof.
  intros Hfits. unfold Emplace. case_bool_decide as Hfull; [|done].
  rewrite RawMemory_new_fits //. exact (Hfits Hfull).
Qed.

Lemma push_back_fits v a :
  (Size v = Capacity v → fits (grown_capacity v)) →
  push_back v a = push_back (SZ := unbounded_size) v a.
Proof.
  intros Hfits. destruct a; rewrite /push_back /PushBack /PushBack_rvalue;
    by rewrite EmplaceBack_fits.
Qed.

Lemma Vector_copy_fits other :
  fits (Size other) → Vector_copy other = Vector_copy (SZ := unbounded_size) other.
Proof. intros. unfold Vector_copy. by rewrite RawMemory_new_fits. Qed.

Lemma copy_assign_from_fits this rhs :
  (Capacity this < Size rhs → fits (Size rhs)) →
  copy_assign_from this rhs = copy_assign_from (SZ := unbounded_size) this rhs.
Proof.
  intros Hfits. unfold copy_assign_from. case_bool_decide as Hcap; [|done].
  rewrite Vector_copy_fits //. by apply Hfits.
Qed.

Lemma call_agree v c :
  call_fits v c → call v c = call (SZ := unbounded_size) v c.
Proof.
  destruct c; cbn [call call_fits]; intros Hfits; [| | | |done..].
  - by apply Reserve_fits.
  - by apply Resize_fits.
  - by apply push_back_fits.
  - by rewrite Emplace_fits.
Qed.

Lemma run_agree calls : ∀ v,
  run_fits v calls → run v calls = run (SZ := unbounded_size) v calls.
Proof.
  induction calls as [|c calls IH]; intros v; [done|].
  cbn [run run_fits]. intros [Hc Hrest]. rewrite call_agree // in Hrest |- *.
  destruct (call v c) as [[v' l]|]; [|done].
  cbn [bind]. by rewrite IH.
Qed.

(** Pushes into spare capacity allocate nothing. *)
Lemma push_back_all_spare_any args : ∀ xs spare,
  length args ≤ spare →
  push_back_all (vec xs spare) args
  = Some (vec (xs ++ (built <$> args)) (spare - length args), ctor_event <$> args).
Proof.
  induction args as [|a args IH]; intros xs spare Hlen.
  - by rewrite /= app_nil_r Nat.sub_0_r.
  - destruct spare as [|spare]; [cbn in Hlen; lia|].
    cbn [push_back_all]. rewrite push_back_fits; last first.
    { rewrite Size_vec Capacity_vec. lia. }
    rewrite push_back_spare. cbn [bind].
    rewrite IH; last (cbn in Hlen; lia).
    cbn [fmap list_fmap length app]. by rewrite -app_assoc.
Qed.

(** Pushes from a container of [length xs] elements allocate for counts of
    at most twice the final size. *)
Lemma push_back_all_fits args : ∀ xs spare,
  (∀ n, n ≤ 2 * (length xs + length args) → fits n) →
  push_back_all (vec xs spare) args
  = push_back_all (SZ := unbounded_size) (vec xs spare) args.
Proof.
  induction args as [|a args IH]; intros xs spare Hfits; [done|].
  cbn [push_back_all]. rewrite push_back_fits; last first.
  { intros _. apply Hfits. unfold grown_capacity. cbn [vec size_ length].
    case_bool_decide; lia. }
  destruct (push_back_vec xs spare a) as (spare' & log & ->).
  cbn [bind]. rewrite IH //.
  intros n Hn. apply Hfits. rewrite length_snoc in Hn. cbn [length]. lia.
Qed.

(** A placement beyond the end of the destination block: the library
    algorithms that fill [n] slots from [d] on have no result when the
    block ends before [d + n]. *)
Lemma uninitialized_value_construct_n_short n : ∀ buf d,
  d ≤ length buf → length buf < d + n →
  uninitialized_value_construct_n buf d n = None.
Proof.
  induction n as [|n IH]; intros buf d Hd Hn; [lia|].
  cbn [uninitialized_value_construct_n]. unfold place, emit.
  destruct (decide (d < length buf)) as [Hlt|Hge].
  - rewrite (bool_decide_true (d < length buf)) //. cbn [assert bind ret].
    rewrite IH ?length_insert //; lia.
  - by rewrite (bool_decide_false (d < length buf)).
Qed.

Lemma uninitialized_copy_n_short n : ∀ src s dst d,
  d ≤ length dst → length dst < d + n →
  uninitialized_copy_n src s n dst d = None.
Proof.
  induction n as [|n IH]; intros src s dst d Hd Hn; [lia|].
  cbn [uninitialized_copy_n]. destruct (read src s) as [[x l]|]; [|done].
  unfold place, emit.
  destruct (decide (d < length dst)) as [Hlt|Hge].
  - rewrite (bool_decide_true (d < length dst)) //. cbn [assert bind ret].
    rewrite IH ?length_insert //; lia.
  - by rewrite (bool_decide_false (d < length dst)).
Qed.

Lemma uninitialized_move_n_short n : ∀ src s dst d,
  d ≤ length dst → length dst < d + n →
  uninitialized_move_n src s n dst d = None.
Proof.
  induction n as [|n IH]; intros src s dst d Hd Hn; [lia|].
  cbn [uninitialized_move_n]. destruct (read src s) as [[x l]|]; [|done].
  unfold place, emit.
  destruct (decide (d < length dst)) as [Hlt|Hge].
  - rewrite (bool_decide_true (d < length dst)) //. cbn [assert bind ret].
    rewrite IH ?length_insert //; lia.
  - by rewrite (bool_decide_false (d < length dst)).
Qed.

(** [Reserve] beyond the capacity, whatever block [Allocate] returns. *)
Lemma Reserve_any xs spare n :
  length xs + spare < n →
  Reserve (vec xs spare) n
  = if bool_decide (length (Allocate n) < length xs) then None
    else Some ({| data_ := {| buffer_ := (Some <$> xs)
                                ++ replicate (length (Allocate n) - length xs) None;
                              capacity_ := n |};
                  size_ := length xs |},
               relocation xs).
Proof.
  intros Hn. unfold Reserve.
  cbn [vec data_ size_ buffer_ capacity_ RawMemory_Capacity].
  rewrite bool_decide_false; last lia.
  rewrite /GetAddress /RawMemory_new /with_buffer /RawMemory_Swap /=.
  pose proof (Allocate_raw n) as Hraw.
  set (b := length (Allocate n)) in *. clearbody b. rewrite Hraw.
  case_bool_decide as Hb.
  - destruct relocate_by_move.
    + rewrite uninitialized_move_n_short ?length_replicate //; lia.
    + rewrite uninitialized_copy_n_short ?length_replicate //; lia.
  - rewrite (replicate_split _ b (length xs)); last lia.
    rewrite relocate_spec; last by rewrite length_replicate.
    cbn [bind]. rewrite destroy_relocated. cbn [bind ret].
    by rewrite app_nil_r relocation_log.
Qed.

Lemma Vector_default_any : Vector_default = vec [] 0.
Proof. done. Qed.

(** On a machine with a [size_t] of [bits] bits the byte count of [n]
    objects fits exactly when the product is below [2 ^ bits]. *)
Lemma fits_size_t_bits bits bytes n :
  (N.of_nat n * N.pos bytes < 2 ^ bits)%N →
  fits (SZ := size_t_bits bits bytes) n.
Proof.
  intros Hlt. unfold fits. cbn [size_mul sizeof size_t_bits].
  rewrite positive_nat_N N.mod_small // N2Nat.inj_mul Nat2N.id.
  by rewrite positive_N_nat.
Qed.

Lemma fits_size_t_bits_inv bits bytes n :
  fits (SZ := size_t_bits bits bytes) n →
  (N.of_nat n * N.pos bytes < 2 ^ bits)%N.
Proof.
  unfold fits. cbn [size_mul sizeof size_t_bits]. rewrite positive_nat_N.
  intros Heq.
  assert (((N.of_nat n * N.pos bytes) mod 2 ^ bits)%N
          = (N.of_nat n * N.pos bytes)%N) as <-.
  { apply N2Nat.inj. by rewrite Heq N2Nat.inj_mul Nat2N.id positive_N_nat. }
  apply N.mod_lt. by apply N.pow_nonzero.
Qed.

(** ** [Size() <= Capacity()] on every machine

    The two numbers [size_] and [capacity_] change in the same way whatever
    block [Allocate] returns. *)

Lemma bind_Some_inv {A B} (m : M A) (f : A → M B) b l :
  bind m f = Some (b, l) → ∃ a l1 l2, m = Some (a, l1) ∧ f a = Some (b, l2).
Proof.
  unfold bind. destruct m as [[a l1]|]; [|done].
  destruct (f a) as [[b' l2]|] eqn:Hf; [|done]. intros [= <- _]. eauto.
Qed.

Lemma assert_Some_inv (c : bool) u l : assert c = Some (u, l) → c = true.
Proof. by destruct c. Qed.

Lemma Vector_sized_le n v log : Vector_sized n = Some (v, log) → Size v ≤ Capacity v.
Proof.
  unfold Vector_sized. intros (buf & l1 & l2 & _ & [= <- _])%bind_Some_inv. done.
Qed.

Lemma Vector_copy_le other v log :
  Vector_copy other = Some (v, log) → Size v ≤ Capacity v.
Proof.
  unfold Vector_copy. intros (buf & l1 & l2 & _ & [= <- _])%bind_Some_inv. done.
Qed.

Lemma Reserve_le v n v' log :
  Reserve v n = Some (v', log) →
  Size v' = Size v ∧ Capacity v' = Capacity v `max` n.
Proof.
  unfold Reserve, Size, Capacity, RawMemory_Capacity.
  case_bool_decide as Hn; [intros [= <- _]; lia|].
  intros ([old new] & l1 & l2 & _ & Hk)%bind_Some_inv.
  apply bind_Some_inv in Hk as (old' & l3 & l4 & _ & [= <- _]).
  cbn [data_ size_ capacity_ with_buffer RawMemory_new]. lia.
Qed.

Lemma Resize_le v n v' log :
  Size v ≤ Capacity v → Resize v n = Some (v', log) → Size v' ≤ Capacity v'.
Proof.
  unfold Resize. intros Hv. case_bool_decide as Hn.
  - intros (v1 & l1 & l2 & [Hsz Hcap]%Reserve_le & Hk)%bind_Some_inv.
    apply bind_Some_inv in Hk as (p & l3 & l4 & _ & Hk).
    apply bind_Some_inv in Hk as (buf & l5 & l6 & _ & [= <- _]).
    revert Hcap. unfold Size, Capacity, RawMemory_Capacity.
    cbn [data_ size_ capacity_ with_buffer]. lia.
  - revert Hv. unfold Size, Capacity, RawMemory_Capacity. intros Hv.
    case_bool_decide as Hlt.
    + intros (p & l3 & l4 & _ & Hk)%bind_Some_inv.
      apply bind_Some_inv in Hk as (buf & l5 & l6 & _ & [= <- _]).
      cbn [data_ size_ capacity_ with_buffer]. lia.
    + intros [= <- _]. cbn [data_ size_ capacity_]. lia.
Qed.

Lemma EmplaceBack_le v a v' r log :
  Size v ≤ Capacity v → EmplaceBack v a = Some (v', r, log) →
  Size v' ≤ Capacity v'.
Proof.
  unfold EmplaceBack, Size, Capacity, RawMemory_Capacity. intros Hv.
  intros (v1 & l1 & l2 & Hv1 & Hk)%bind_Some_inv.
  apply bind_Some_inv in Hk as (r' & l3 & l4 & _ & [= <- _]).
  cbn [data_ size_]. revert Hv1. case_bool_decide as Hfull.
  - intros (p & l5 & l6 & _ & Hk)%bind_Some_inv.
    apply bind_Some_inv in Hk as (new & l7 & l8 & _ & Hk).
    apply bind_Some_inv in Hk as ([old new'] & l9 & l10 & _ & Hk).
    apply bind_Some_inv in Hk as (old' & l11 & l12 & _ & [= <-]).
    cbn [data_ size_ capacity_ with_buffer RawMemory_new RawMemory_Swap].
    case_bool_decide; lia.
  - intros (p & l5 & l6 & _ & Hk)%bind_Some_inv.
    apply bind_Some_inv in Hk as (buf & l7 & l8 & _ & [= <-]).
    cbn [data_ size_ capacity_ with_buffer]. lia.
Qed.

Lemma push_back_le v a v' log :
  Size v ≤ Capacity v → push_back v a = Some (v', log) → Size v' ≤ Capacity v'.
Proof.
  intros Hv. destruct a; unfold push_back, PushBack, PushBack_rvalue;
    intros ([v1 r] & l1 & l2 & Hv1 & [= <- _])%bind_Some_inv;
    by eapply EmplaceBack_le.
Qed.

Lemma Emplace_le v pos a v' r log :
  Size v ≤ Capacity v → Emplace v pos a = Some (v', r, log) →
  Size v' ≤ Capacity v'.
Proof.
  unfold Emplace, Size, Capacity, RawMemory_Capacity. intros Hv.
  intros (cb & l1 & l2 & _ & Hk)%bind_Some_inv.
  apply bind_Some_inv in Hk as (b & l3 & l4 & _ & Hk).
  apply bind_Some_inv in Hk as (v1 & l5 & l6 & Hv1 & Hk).
  apply bind_Some_inv in Hk as (r' & l7 & l8 & _ & [= <- _]).
  cbn [data_ size_]. revert Hv1. case_bool_decide as Hfull.
  - intros (new & l9 & l10 & _ & Hk)%bind_Some_inv.
    apply bind_Some_inv in Hk as ([old new'] & l11 & l12 & _ & Hk).
    apply bind_Some_inv in Hk as (old' & l13 & l14 & _ & [= <-]).
    cbn [data_ size_ capacity_ with_buffer RawMemory_new RawMemory_Swap].
    case_bool_decide; lia.
  - case_bool_decide as Hne.
    + intros (u & l9 & l10 & _ & Hk)%bind_Some_inv.
      apply bind_Some_inv in Hk as (buf & l11 & l12 & _ & Hk).
      apply bind_Some_inv in Hk as (e & l13 & l14 & _ & Hk).
      apply bind_Some_inv in Hk as (buf' & l15 & l16 & _ & Hk).
      apply bind_Some_inv in Hk as (x & l17 & l18 & _ & Hk).
      apply bind_Some_inv in Hk as (u1 & l19 & l20 & _ & Hk).
      apply bind_Some_inv in Hk as (u2 & l21 & l22 & _ & [= <-]).
      cbn [data_ size_ capacity_ with_buffer]. lia.
    + intros (buf & l9 & l10 & _ & [= <-])%bind_Some_inv.
      cbn [data_ size_ capacity_ with_buffer]. lia.
Qed.

Lemma Erase_le v pos v' r log :
  Size v ≤ Capacity v → Erase v pos = Some (v', r, log) → Size v' ≤ Capacity v'.
Proof.
  unfold Erase, Size, Capacity, RawMemory_Capacity. intros Hv.
  intros (cb & l1 & l2 & _ & Hk)%bind_Some_inv.
  apply bind_Some_inv in Hk as (b & l3 & l4 & _ & Hk).
  apply bind_Some_inv in Hk as (e & l5 & l6 & _ & Hk).
  apply bind_Some_inv in Hk as ([buf last] & l7 & l8 & _ & Hk).
  apply bind_Some_inv in Hk as (buf' & l9 & l10 & _ & Hk).
  apply bind_Some_inv in Hk as (u & l11 & l12 & _ & [= <- _]).
  cbn [data_ size_ capacity_ with_buffer]. lia.
Qed.

Lemma PopBack_le v v' log :
  Size v ≤ Capacity v → PopBack v = Some (v', log) → Size v' ≤ Capacity v'.
Proof.
  unfold PopBack, Size, Capacity, RawMemory_Capacity. intros Hv.
  intros (u & l1 & l2 & _ & Hk)%bind_Some_inv.
  apply bind_Some_inv in Hk as (p & l3 & l4 & _ & Hk).
  apply bind_Some_inv in Hk as (buf & l5 & l6 & _ & [= <- _]).
  cbn [data_ size_ capacity_ with_buffer]. lia.
Qed.

Lemma copy_assign_elem_capacity data i x data' log :
  copy_assign_elem data i x = Some (data', log) → capacity_ data' = capacity_ data.
Proof.
  unfold copy_assign_elem. intros (p & l1 & l2 & _ & Hk)%bind_Some_inv.
  apply bind_Some_inv in Hk as (y & l3 & l4 & _ & Hk).
  by apply bind_Some_inv in Hk as (u & l5 & l6 & _ & [= <- _]).
Qed.

Lemma assign_loop_capacity rhs n : ∀ data i data' log,
  assign_loop data rhs i n = Some (data', log) → capacity_ data' = capacity_ data.
Proof.
  induction n as [|n IH]; intros data i data' log; [by intros [= <- _]|].
  cbn [assign_loop]. intros (x & l1 & l2 & _ & Hk)%bind_Some_inv.
  apply bind_Some_inv in Hk as (data1 & l3 & l4 & H1%copy_assign_elem_capacity & Hk).
  apply IH in Hk. congruence.
Qed.

Lemma copy_assign_from_le v rhs v' log :
  Size v ≤ Capacity v → copy_assign_from v rhs = Some (v', log) →
  Size v' ≤ Capacity v'.
Proof.
  unfold copy_assign_from, Size, Capacity, RawMemory_Capacity. intros Hv.
  case_bool_decide as Hcap.
  - intros (c & l1 & l2 & Hc%Vector_copy_le & Hk)%bind_Some_inv.
    rewrite Swap_id in Hk.
    by apply bind_Some_inv in Hk as (u & l3 & l4 & _ & [= <- _]).
  - intros (data & l1 & l2 & Hdata & [= <- _])%bind_Some_inv.
    cbn [data_ size_]. revert Hdata. case_bool_decide as Hlt.
    + intros (d1 & l3 & l4 & H1%assign_loop_capacity & Hk)%bind_Some_inv.
      apply bind_Some_inv in Hk as (p & l5 & l6 & _ & Hk).
      apply bind_Some_inv in Hk as (buf & l7 & l8 & _ & [= <- _]).
      cbn [capacity_ with_buffer]. lia.
    + intros (d1 & l3 & l4 & H1%assign_loop_capacity & Hk)%bind_Some_inv.
      apply bind_Some_inv in Hk as (s & l5 & l6 & _ & Hk).
      apply bind_Some_inv in Hk as (d & l7 & l8 & _ & Hk).
      apply bind_Some_inv in Hk as (buf & l9 & l10 & _ & [= <- _]).
      cbn [capacity_ with_buffer]. lia.
Qed.

(** Every step keeps [size_ <= capacity_] in every object of the store. *)
Lemma step_le σ σ' :
  step σ σ' →
  map_Forall (λ _ v, Size v ≤ Capacity v) σ →
  map_Forall (λ _ v, Size v ≤ Capacity v) σ'.
Proof.
  intros Hstep Hσ.
  assert (∀ a v, σ !! a = Some v → Size v ≤ Capacity v) as Hle
    by (intros; by eapply Hσ).
  destruct Hstep.
  - by apply map_Forall_insert_2.
  - apply map_Forall_insert_2; [by eapply Vector_sized_le|done].
  - apply map_Forall_insert_2; [by eapply Vector_copy_le|done].
  - destruct other as [[buf capacity] size].
    apply map_Forall_insert_2; [done|].
    apply map_Forall_insert_2; [|done].
    by apply (Hle b {| data_ := {| buffer_ := buf; capacity_ := capacity |};
                       size_ := size |}).
  - revert H0. unfold copy_assign.
    destruct (σ !! a) as [v|] eqn:Ha; [|by rewrite /deref Ha].
    destruct (σ !! b) as [r|] eqn:Hb; [|by rewrite /deref Ha Hb].
    rewrite (deref_lookup σ a v) // (deref_lookup σ b r) //. mred.
    case_bool_decide; [|by intros [= <- _]].
    destruct (copy_assign_from v r) as [[v' l]|] eqn:Hv'; [|done].
    mred. intros [= <- _].
    apply map_Forall_insert_2; [|done].
    apply (copy_assign_from_le v r v' l); eauto.
  - revert H0. unfold move_assign_vec.
    destruct (σ !! a) as [v|] eqn:Ha; [|by rewrite /deref Ha].
    destruct (σ !! b) as [r|] eqn:Hb; [|by rewrite /deref Ha Hb].
    rewrite (deref_lookup σ a v) // (deref_lookup σ b r) //. mred.
    rewrite RawMemory_move_assign_id. mred. intros [= <- _].
    apply map_Forall_insert_2; [destruct v as [[??]?]; by eapply (Hle a)|].
    apply map_Forall_insert_2; [destruct r as [[??]?]; by eapply (Hle b)|done].
  - revert H0. unfold Swap_at.
    destruct (σ !! a) as [v|] eqn:Ha; [|by rewrite /deref Ha].
    destruct (σ !! b) as [r|] eqn:Hb; [|by rewrite /deref Ha Hb].
    rewrite (deref_lookup σ a v) // (deref_lookup σ b r) //. mred.
    rewrite Swap_id. mred. intros [= <- _].
    apply map_Forall_insert_2; [eauto|].
    apply map_Forall_insert_2; [eauto|done].
  - by apply map_Forall_delete.
  - apply map_Forall_insert_2; [|done].
    apply Reserve_le in H1 as [-> ->]. specialize (Hle _ _ H0). lia.
  - apply map_Forall_insert_2; [eapply Resize_le; eauto|done].
  - apply map_Forall_insert_2; [eapply push_back_le; eauto|done].
  - apply map_Forall_insert_2; [eapply Emplace_le; eauto|done].
  - apply map_Forall_insert_2; [eapply Emplace_le; eauto|done].
  - apply map_Forall_insert_2; [eapply Emplace_le; eauto|done].
  - apply map_Forall_insert_2; [eapply Erase_le; eauto|done].
  - apply map_Forall_insert_2; [eapply PopBack_le; eauto|done].
Qed.

Lemma reachable_le σ : reachable σ → map_Forall (λ _ v, Size v ≤ Capacity v) σ.
Proof.
  unfold reachable. intros Hσ.
  apply (rtc_ind_r (R := step) (λ σ, map_Forall (λ _ v, Size v ≤ Capacity v) σ) ∅);
    [| |done].
  - apply map_Forall_empty.
  - intros σ1 σ2 _ Hstep IH. by eapply step_le.
Qed.


(** C6.  On a full container ([Size() == Capacity()]) whose grown capacity
    has a byte count that fits, [PushBack], [EmplaceBack] and [Emplace] at
    any position of [[begin, end]] succeed and leave a well-formed
    container over a block of exactly 1 slot if the capacity was 0 and of
    exactly twice the old capacity otherwise, holding the old elements and
    the new one at its position.  On a container with
    [Size() < Capacity()], [PushBack] and [EmplaceBack] perform the single
    construction of the new element, in slot [Size()] of the same block,
    and the capacity is unchanged. *)
Theorem C6_growth (v : Vector) (a : CtorArgs) (pos : nat) :
  wf v → pos ≤ Size v →
  (Size v = Capacity v → fits (grown_capacity v)) →
  if bool_decide (Size v = Capacity v) then
    let doubled := if bool_decide (Capacity v = 0) then 1 else 2 * Capacity v in
    (∃ v' log,
       push_back v a = Some (v', log) ∧
       wf v' ∧ Capacity v' = doubled ∧ length (buffer_ (data_ v')) = doubled ∧
       Size v' = S (Size v) ∧ elements v' = elements v ++ [built a]) ∧
    (∃ v' log,
       EmplaceBack v a = Some (v', Size v, log) ∧
       wf v' ∧ Capacity v' = doubled ∧ length (buffer_ (data_ v')) = doubled ∧
       Size v' = S (Size v) ∧ elements v' = elements v ++ [built a]) ∧
    (∃ v' log,
       Emplace v pos a = Some (v', pos, log) ∧
       wf v' ∧ Capacity v' = doubled ∧ length (buffer_ (data_ v')) = doubled ∧
       Size v' = S (Size v) ∧
       elements v' = take pos (elements v) ++ built a :: drop pos (elements v))
  else
    ∃ v',
      push_back v a = Some (v', [ctor_event a]) ∧
      EmplaceBack v a = Some (v', Size v, [ctor_event a]) ∧
      Capacity v' = Capacity v ∧ Size v' = S (Size v) ∧
      buffer_ (data_ v') = <[Size v := Some (built a)]> (buffer_ (data_ v)).
Proof.
  intros (xs & spare & ->)%wf_vec_iff Hpos Hfits.
  rewrite push_back_fits // EmplaceBack_fits // Emplace_fits //.
  clear Hfits. rewrite Size_vec in Hpos |- *. rewrite Capacity_vec elements_vec.
  destruct spare as [|spare].
  - rewrite bool_decide_true; last lia. cbn zeta.
    rewrite push_back_full EmplaceBack_full Emplace_full_at //.
    set (doubled := if bool_decide (length xs + 0 = 0) then 1 else 2 * (length xs + 0)).
    assert (∀ ys, length ys = S (length xs) →
              wf (vec ys (length xs - 1)) ∧
              Capacity (vec ys (length xs - 1)) = doubled ∧
              length (buffer_ (data_ (vec ys (length xs - 1)))) = doubled ∧
              Size (vec ys (length xs - 1)) = S (length xs) ∧
              elements (vec ys (length xs - 1)) = ys) as Hvec.
    { intros ys Hys.
      rewrite Capacity_vec elements_vec Size_vec buffer_vec length_app length_fmap
        length_replicate Hys.
      unfold doubled. split_and!; [apply wf_vec|case_bool_decide; lia..|done|done]. }
    split_and!; eexists _, _; (split; [done|]); apply Hvec.
    + by rewrite length_snoc.
    + by rewrite length_snoc.
    + rewrite length_app /= length_take length_drop. lia.
  - rewrite bool_decide_false; last lia.
    exists (vec (xs ++ [built a]) spare).
    rewrite push_back_spare EmplaceBack_spare !Capacity_vec Size_vec length_snoc.
    split_and!; [done|done|lia|done|].
    rewrite !buffer_vec fmap_app -app_assoc /=.
    by rewrite insert_at; last by rewrite length_fmap.
Qed.

(** C4.  Every relocation ([Reserve] beyond the capacity, growth in
    [EmplaceBack] and in [Emplace]), made for a count whose byte size fits,
    transfers all elements by move construction when [T] is
    nothrow-move-constructible or not copy-constructible, and all of them
    by copy construction otherwise; the originals are destroyed afterwards.
    Besides these, the only element operation is the construction of the
    new element, which comes first.  The container that results is
    well-formed and holds the old elements, with the new one at its
    position. *)
Theorem C4_relocation_policy (v : Vector) (new_capacity pos : nat) (a : CtorArgs) :
  wf v → pos ≤ Size v →
  (Capacity v < new_capacity → fits new_capacity) →
  (Size v = Capacity v → fits (grown_capacity v)) →
  let xs := elements v in
  let transfer :=
    if is_nothrow_move_constructible || negb is_copy_constructible
    then (EvMoveCtor <$> xs) ++ (EvDtor <$> (moved_from <$> xs))
    else (EvCopyCtor <$> xs) ++ (EvDtor <$> xs) in
  (if bool_decide (Capacity v < new_capacity)
   then ∃ v', Reserve v new_capacity = Some (v', transfer) ∧
              wf v' ∧ elements v' = xs ∧ Capacity v' = new_capacity
   else Reserve v new_capacity = Some (v, [])) ∧
  (if bool_decide (Size v = Capacity v)
   then (∃ v', EmplaceBack v a = Some (v', Size v, ctor_event a :: transfer) ∧
               wf v' ∧ elements v' = xs ++ [built a]) ∧
        (∃ v', Emplace v pos a = Some (v', pos, ctor_event a :: transfer) ∧
               wf v' ∧ elements v' = take pos xs ++ built a :: drop pos xs)
   else ∃ v', EmplaceBack v a = Some (v', Size v, [ctor_event a]) ∧
              wf v' ∧ elements v' = xs ++ [built a]).
Proof.
  intros (xs & spare & ->)%wf_vec_iff Hpos Hres Hgrow. cbn zeta.
  rewrite Reserve_fits // EmplaceBack_fits // Emplace_fits //.
  clear Hres Hgrow.
  rewrite Size_vec in Hpos |- *. rewrite Capacity_vec elements_vec.
  fold relocate_by_move. fold (relocation xs). split.
  - rewrite Reserve_spec. case_bool_decide.
    + rewrite bool_decide_false; last lia.
      eexists. split; [done|].
      rewrite elements_vec Capacity_vec. split_and!; [apply wf_vec|done|lia].
    + by rewrite bool_decide_true; [|lia].
  - destruct spare as [|spare].
    + rewrite bool_decide_true; last lia.
      rewrite EmplaceBack_full Emplace_full_at //.
      split; eexists; (split; [done|]); rewrite elements_vec;
        (split; [apply wf_vec|done]).
    + rewrite bool_decide_false; last lia. rewrite EmplaceBack_spare.
      eexists. split; [done|]. rewrite elements_vec. split; [apply wf_vec|done].
Qed.

(** X1.  [Vector(size)] for a count whose byte size fits value-initialises
    exactly [size] elements and nothing else: the container has size and
    capacity [size] and every element is the value [T()] builds. *)
Theorem X1_construct_by_size (n : nat) :
  fits n →
  ∃ v,
    Vector_sized n = Some (v, replicate n (EvValueInit default_value)) ∧
    wf v ∧ Size v = n ∧ Capacity v = n ∧
    elements v = replicate n default_value.
Proof.
  intros Hfits. exists (vec (replicate n default_value) 0).
  rewrite Vector_sized_fits // Vector_sized_spec elements_vec Size_vec
    Capacity_vec length_replicate.
  split_and!; [done|apply wf_vec|done|lia|done].
Qed.

(** X4.  [Resize(new_size)], for a [new_size] that is within the capacity
    or whose byte size fits, succeeds and leaves exactly [new_size]
    elements: the first [new_size] old ones, then value-initialised ones.
    The capacity never shrinks and grows to [new_size] only when that is
    larger.  Shrinking performs only the destructor calls of the dropped
    elements; growing performs a relocation when the capacity is exceeded,
    then the value-initialisations. *)
Theorem X4_resize (v : Vector) (new_size : nat) :
  wf v → (Capacity v < new_size → fits new_size) →
  ∃ v',
    Resize v new_size
    = Some (v',
            if bool_decide (new_size < Size v)
            then EvDtor <$> drop new_size (elements v)
            else (if bool_decide (new_size ≤ Capacity v) then []
                  else relocation (elements v))
                 ++ replicate (new_size - Size v) (EvValueInit default_value)) ∧
    wf v' ∧ Size v' = new_size ∧
    elements v'
    = take new_size (elements v) ++ replicate (new_size - Size v) default_value ∧
    Capacity v' = Capacity v `max` new_size.
Proof.
  intros (xs & spare & ->)%wf_vec_iff Hfits.
  rewrite Resize_fits //. clear Hfits.
  rewrite !elements_vec !Size_vec !Capacity_vec.
  destruct (Nat.lt_trichotomy (length xs) new_size) as [Hlt|[<-|Hgt]].
  - eexists. rewrite Resize_grow //.
    rewrite (bool_decide_false (new_size < length xs)); last lia.
    split; [done|]. rewrite elements_vec Size_vec Capacity_vec length_app
      length_replicate take_ge; last lia.
    split_and!; [apply wf_vec|lia|done|lia].
  - eexists. rewrite Resize_same (bool_decide_false (_ < _)); last lia.
    rewrite bool_decide_true; last lia. rewrite Nat.sub_diag /=.
    split; [done|]. rewrite elements_vec Size_vec Capacity_vec firstn_all app_nil_r.
    split_and!; [apply wf_vec|done|done|lia].
  - eexists. rewrite Resize_shrink // bool_decide_true; last done.
    split; [done|].
    rewrite elements_vec Size_vec Capacity_vec length_take.
    replace (new_size - length xs) with 0 by lia. rewrite app_nil_r.
    split_and!; [apply wf_vec|lia|done|lia].
Qed.

(** X15.  After [Reserve(n)], for an [n] within the capacity or whose byte
    size fits, pushing values while the size stays within [n] never
    relocates: the only element operations are the constructions of the new
    elements, one each, and the capacity stays what [Reserve] left. *)
Theorem X15_reserve_then_push_back (v : Vector) (n : nat) (args : list CtorArgs) :
  wf v → Size v + length args ≤ n → (Capacity v < n → fits n) →
  ∃ v1 log1 v2,
    Reserve v n = Some (v1, log1) ∧
    push_back_all v1 args = Some (v2, ctor_event <$> args) ∧
    wf v2 ∧ elements v2 = elements v ++ (built <$> args) ∧
    Capacity v2 = Capacity v1.
Proof.
  intros (xs & spare & ->)%wf_vec_iff. rewrite Size_vec elements_vec.
  intros Hn Hfits. rewrite Reserve_fits // Reserve_spec. case_bool_decide.
  - eexists _, _, _. split; [done|].
    rewrite push_back_all_spare_any; last lia. split; [done|].
    rewrite elements_vec !Capacity_vec length_app length_fmap.
    split_and!; [apply wf_vec|done|lia].
  - eexists _, _, _. split; [done|].
    rewrite push_back_all_spare_any; last lia. split; [done|].
    rewrite elements_vec !Capacity_vec length_app length_fmap.
    split_and!; [apply wf_vec|done|lia].
Qed.

(** X18.  Over any sequence of calls of [Reserve], [Resize], [PushBack],
    [EmplaceBack], [Emplace], [Erase] and [PopBack] that has a result and
    in which every allocation is for a count whose byte size fits, the
    container stays well-formed and the constructor calls minus the
    destructor calls are the growth of [Size()].  The destructor then
    destroys what is left, so that from the first call to the destructor
    every object constructed is destroyed exactly once besides the
    elements the container held at the start. *)
Theorem X18_constructions_and_destructions
    (v : Vector) (calls : list Call) (v' : Vector) (log : list Event) :
  wf v → run_fits v calls → run v calls = Some (v', log) →
  wf v' ∧
  (Z.of_nat (Size v) + balance log = Z.of_nat (Size v'))%Z ∧
  ∃ log',
    Vector_dtor v' = Some ((), log') ∧
    (Z.of_nat (Size v) + balance (log ++ log') = 0)%Z.
Proof.
  intros (xs & spare & ->)%wf_vec_iff Hfits Hrun.
  rewrite run_agree // in Hrun.
  destruct (run_balance _ _ _ _ _ Hrun) as (xs' & spare' & -> & Hb).
  rewrite !Size_vec. split; [apply wf_vec|]. split; [done|].
  exists (EvDtor <$> xs'). rewrite Vector_dtor_spec. split; [done|].
  rewrite balance_app (balance_fmap EvDtor (-1)) //. lia.
Qed.

(** X20.  [Reserve(n)] beyond the capacity when the byte count has wrapped,
    so that the block [Allocate] returns has fewer than [n] slots.  If the
    elements do not fit in that block, the relocation constructs past its
    end and the call has no defined result.  If they fit, the call returns
    a container whose [Capacity()] is [n] over a block that is shorter: the
    data-model invariant is lost. *)
Theorem X20_reserve_short_block (v : Vector) (n : nat) :
  wf v → Capacity v < n → length (Allocate n) < n →
  if bool_decide (length (Allocate n) < Size v) then Reserve v n = None
  else ∃ v' log,
    Reserve v n = Some (v', log) ∧
    Size v' = Size v ∧ elements v' = elements v ∧ Capacity v' = n ∧
    length (buffer_ (data_ v')) = length (Allocate n) ∧ ¬ wf v'.
Proof.
  intros (xs & spare & ->)%wf_vec_iff. rewrite Capacity_vec Size_vec elements_vec.
  intros Hcap Hshort. rewrite Reserve_any //.
  case_bool_decide as Hb; [done|].
  eexists _, _. split; [done|].
  unfold Size, Capacity, RawMemory_Capacity, elements, wf.
  cbn [data_ size_ buffer_ capacity_].
  rewrite take_app_length'; last by rewrite length_fmap.
  rewrite length_app length_fmap length_replicate.
  split_and!; [done|apply omap_id_Some|done|lia|].
  intros (Hlen & _). lia.
Qed.

(** X21.  [Vector(size)] when the byte count has wrapped: the block has
    fewer than [size] slots, the value-initialisations run past its end and
    the constructor has no defined result. *)
Theorem X21_construct_by_size_short_block (n : nat) :
  length (Allocate n) < n → Vector_sized n = None.
Proof.
  intros Hshort. unfold Vector_sized.
  rewrite /GetAddress /RawMemory_new /with_buffer. cbn [buffer_ capacity_].
  rewrite uninitialized_value_construct_n_short //; lia.
Qed.

(** X22.  [Resize(new_size)] beyond the capacity when the byte count has
    wrapped has no defined result: either the relocation or the
    value-initialisations that follow it run past the end of the block. *)
Theorem X22_resize_short_block (v : Vector) (new_size : nat) :
  wf v → Capacity v < new_size → length (Allocate new_size) < new_size →
  Resize v new_size = None.
Proof.
  intros (xs & spare & ->)%wf_vec_iff. rewrite Capacity_vec. intros Hcap Hshort.
  unfold Resize. rewrite (bool_decide_true (_ < _)); last (cbn [vec size_]; lia).
  rewrite Reserve_any //. case_bool_decide as Hb; [done|].
  cbn [bind]. unfold RawMemory_plus. cbn [data_ size_ buffer_ capacity_].
  massert. rewrite uninitialized_value_construct_n_short //;
    rewrite length_app length_fmap length_replicate; lia.
Qed.

(** X23.  On every machine, pushing a sequence of values onto a
    default-constructed container succeeds when the byte count of twice the
    number of values fits: the container is well-formed, [Size()] is the
    number of values pushed and [operator[]] at [i] reads the [i]-th. *)
Theorem X23_push_back_within_size_t (args : list CtorArgs) :
  (∀ n, n ≤ 2 * length args → fits n) →
  ∃ v log,
    push_back_all Vector_default args = Some (v, log) ∧
    wf v ∧ Size v = length args ∧ elements v = built <$> args ∧
    ∀ i, at_ v i = (λ a, (built a, [])) <$> args !! i.
Proof.
  intros Hfits.
  destruct (push_back_all_vec args [] 0) as (spare & log & Heq).
  exists (vec (built <$> args) spare), log. split_and!.
  - by rewrite Vector_default_any push_back_all_fits // Heq.
  - apply wf_vec.
  - by rewrite Size_vec length_fmap.
  - by rewrite elements_vec.
  - intros i. rewrite at_vec list_lookup_fmap. by destruct (args !! i).
Qed.

(** ** Calls that allocate nothing

    They do the same on every machine. *)

Lemma Vector_move_any other : Vector_move other = (other, Vector_default).
Proof. by destruct other as [[buf capacity] size]. Qed.

(** C2, as the code has it.  Move construction from [v] gives a container
    equal to [v] and leaves [v] default-constructed, so with [Size() == 0].
    Move assignment [w = std::move(v)] exchanges the two objects without any
    element operation: [w] ends with the block, size and elements [v] had,
    and [v] ends with those [w] had (so [v] is empty only if [w] was). *)
Theorem C2_move_exchanges (σ : gmap nat Vector) (this rhs : nat) (w v : Vector) :
  σ !! this = Some w → σ !! rhs = Some v →
  Vector_move v = (v, Vector_default) ∧ Size Vector_default = 0 ∧
  ∃ σ',
    move_assign_vec σ this rhs = Some (σ', []) ∧
    σ' = <[rhs := w]> (<[this := v]> σ) ∧
    σ' !! this = Some v ∧ σ' !! rhs = Some w.
Proof.
  intros Hw Hv. split; [apply Vector_move_any|]. split; [done|].
  exists (<[rhs := w]> (<[this := v]> σ)).
  rewrite (move_assign_vec_spec σ this rhs w v) //. split_and!; [done..| |].
  - destruct (decide (this = rhs)) as [->|Hne].
    + rewrite lookup_insert_eq. congruence.
    + by rewrite lookup_insert_ne // lookup_insert_eq.
  - by rewrite lookup_insert_eq.
Qed.

(** C10.  Copy assignment of an object to itself leaves the store, and so
    the size, capacity and elements of the object, exactly as they were,
    and performs no element operation. *)
Theorem C10_self_copy_assign (σ : gmap nat Vector) (a : nat) (v : Vector) :
  σ !! a = Some v → copy_assign σ a a = Some (σ, []).
Proof.
  intros Ha. unfold copy_assign. rewrite (deref_lookup σ a v) //. mred.
  by rewrite bool_decide_false; [|naive_solver].
Qed.

(** C9.  [Size() <= Capacity()] holds for a default-constructed container
    and for every container of every store that a program over the public
    interface reaches: it is preserved by construction by size, copy and
    move construction and assignment, [Swap], [Reserve], [Resize],
    [PushBack]/[EmplaceBack], [Insert]/[Emplace], [Erase], [PopBack]. *)
Theorem C9_size_le_capacity (σ : gmap nat Vector) (a : nat) (v : Vector) :
  reachable σ → σ !! a = Some v →
  Size Vector_default ≤ Capacity Vector_default ∧ Size v ≤ Capacity v.
Proof.
  intros Hσ Ha. split; [done|]. exact (reachable_le σ Hσ a v Ha).
Qed.

(** X9.  [Emplace] (and so [Insert]) before an existing element of a
    container with a raw slot left works in place: it builds a temporary,
    move-constructs the last element into the raw slot, move-assigns the
    elements from the position up to the last but one one slot up, from the
    back, move-assigns the temporary into the position and destroys the
    temporary, whatever the relocation policy of [T].  The capacity is kept
    and the returned position is the one given. *)
Theorem X9_emplace_in_place (v : Vector) (pos : nat) (a : CtorArgs) :
  wf v → pos < Size v → Size v < Capacity v →
  ∃ v' z,
    last (elements v) = Some z ∧
    Emplace v pos a
    = Some (v', pos,
            [ctor_event a; EvMoveCtor z]
            ++ (EvMoveAssign <$> reverse (drop pos (take (Size v - 1) (elements v))))
            ++ [EvMoveAssign (built a); EvDtor (moved_from (built a))]) ∧
    wf v' ∧
    elements v' = take pos (elements v) ++ built a :: drop pos (elements v) ∧
    Capacity v' = Capacity v.
Proof.
  intros Hwf Hlt Hcap. rewrite Emplace_fits; last (intros Heq; lia).
  revert Hwf Hlt Hcap.
  intros (xs & spare & ->)%wf_vec_iff.
  rewrite !elements_vec !Size_vec !Capacity_vec. intros Hpos Hcap.
  destruct spare as [|spare]; [lia|].
  destruct (split_at xs pos) as (xs1 & xs2 & -> & <-); [lia|].
  destruct xs2 as [|z ys _] using rev_ind.
  { rewrite length_app /= in Hpos. lia. }
  exists (vec (xs1 ++ built a :: ys ++ [z]) spare), z.
  rewrite Emplace_shift elements_vec Capacity_vec.
  assert (take (length (xs1 ++ ys ++ [z]) - 1) (xs1 ++ ys ++ [z]) = xs1 ++ ys)
    as ->.
  { rewrite (app_assoc xs1). apply take_app_length'.
    rewrite !length_app /=. lia. }
  rewrite !drop_app_length take_app_length.
  split_and!; [by rewrite app_assoc last_snoc|done|apply wf_vec|done|].
  rewrite !length_app /= !length_app /=. lia.
Qed.

(** X11.  At [end()] of a non-empty container with a raw slot left [Emplace]
    works in place too: it move-constructs the last element into the raw
    slot and hands [std::move_backward] the range from [end()] to
    [end() - 1].  The call has no defined result; where the library takes
    the range as empty, the new value is assigned over the copy in the raw
    slot and the last old element is left moved-from. *)
Theorem X11_emplace_at_end_in_place (v : Vector) (a : CtorArgs) :
  wf v → Size v ≠ 0 → Size v < Capacity v →
  ∃ z,
    last (elements v) = Some z ∧
    Emplace v (Size v) a
    = if inverted_range_is_empty then
        Some (vec (take (Size v - 1) (elements v) ++ [moved_from z; built a])
                  (Capacity v - Size v - 1),
              Size v,
              [ctor_event a; EvMoveCtor z; EvMoveAssign (built a);
               EvDtor (moved_from (built a))])
      else None.
Proof.
  intros Hwf Hlt Hcap. rewrite Emplace_fits; last (intros Heq; lia).
  revert Hwf Hlt Hcap.
  intros (xs & spare & ->)%wf_vec_iff.
  rewrite !elements_vec !Size_vec !Capacity_vec. intros Hne Hcap.
  destruct spare as [|spare]; [lia|].
  destruct xs as [|z xs _] using rev_ind; [done|].
  exists z. rewrite last_snoc Emplace_end_spare length_snoc.
  replace (S (length xs) - 1) with (length xs) by lia.
  rewrite take_app_length.
  by replace (S (length xs) + S spare - S (length xs) - 1) with spare by lia.
Qed.

(** X19.  [Erase] at a position followed by [Insert] of the erased value at
    the same position gives back the elements, the size and the capacity,
    provided the erased element was not the last of several (then the
    position is [end()] of a non-empty container with a raw slot left). *)
Theorem X19_erase_insert (v : Vector) (pos : nat) (y : T) :
  wf v → elements v !! pos = Some y → S pos < Size v ∨ Size v = 1 →
  ∃ v1 log1 v2 log2,
    Erase v pos = Some (v1, pos, log1) ∧
    Insert v1 pos y = Some (v2, pos, log2) ∧
    elements v2 = elements v ∧ Size v2 = Size v ∧ Capacity v2 = Capacity v.
Proof.
  intros (xs & spare & ->)%wf_vec_iff.
  rewrite !elements_vec !Size_vec. intros Hy Hcase.
  pose proof (lookup_lt_Some _ _ _ Hy) as Hpos.
  assert (length (take pos xs) = pos) as Hlen by (apply length_take_le; lia).
  rewrite (Erase_at xs pos y) //. unfold Insert.
  destruct (drop (S pos) xs) as [|z zs _] eqn:Hdrop using rev_ind.
  - assert (length xs = S pos) as Hlast.
    { apply (f_equal length) in Hdrop. rewrite length_drop /= in Hdrop. lia. }
    assert (pos = 0) as -> by lia.
    eexists _, _, _, _. split; [done|].
    rewrite take_0 /= Emplace_fits; last (rewrite Size_vec Capacity_vec /=; lia).
    rewrite Emplace_empty. split; [done|].
    rewrite elements_vec Size_vec !Capacity_vec Hlast.
    rewrite -(take_drop_middle xs 0 y Hy) Hdrop take_0. done.
  - eexists _, _, _, _. split; [done|].
    rewrite Emplace_fits; last first.
    { rewrite Size_vec Capacity_vec !length_app /=. lia. }
    rewrite -{2}Hlen.
    rewrite (Emplace_shift (take pos xs) zs z spare (ByCopy y)) Hlen.
    split; [done|].
    rewrite elements_vec Size_vec !Capacity_vec -Hdrop.
    by rewrite (take_drop_middle xs pos y Hy).
Qed.

End any_machine.

End vector.

Notation "'let*' x := m 'in' k" := (bind m (λ x, k))
  (at level 10, x pattern, m at level 100, k at level 200).

(** * Concrete runs on [int] with a [size_t] of 64 bits *)

Section int_runs.
#[local] Existing Instance int_element.
#[local] Existing Instance int_size_t_64.
#[local] Existing Instance checked_ranges.
Local Open Scope Z_scope.

(** The scenario of the specification: three [PushBack], an [Insert] in the
    middle, an [Erase], a [PopBack]. *)
Example scenario_push_insert_erase_pop :
  (let* v := push_back_all Vector_default [ByCopy 1; ByCopy 2; ByCopy 3] in
   let* (v, _) := Insert v 1 9 in
   let* (v, _) := Erase v 2 in
   let* v := PopBack v in
   ret (elements v, Size v))
  = Some (([1; 9], 2%nat),
          [EvCopyCtor 1; EvCopyCtor 2; EvMoveCtor 1; EvDtor 1;
           EvCopyCtor 3; EvMoveCtor 1; EvMoveCtor 2; EvDtor 1; EvDtor 2;
           EvCopyCtor 9; EvMoveCtor 3; EvMoveAssign 2; EvMoveAssign 9; EvDtor 9;
           EvMoveAssign 3; EvDtor 3; EvDtor 3]).
Proof. reflexivity. Qed.

Lemma C7_erase_witness :
  wf (vec [1; 9; 2; 3] 0) ∧ (2 < Size (vec [1; 9; 2; 3]%Z 0))%nat ∧
  ∃ v', Erase (vec [1; 9; 2; 3] 0) 2 = Some (v', 2%nat, [EvMoveAssign 3; EvDtor 3]) ∧
        elements v' = [1; 9; 3].
Proof.
  split; [apply wf_vec|]. split; [cbn; lia|].
  destruct (C7_erase (vec [1; 9; 2; 3] 0) 2 (wf_vec _ _))
    as (v' & y & Hy & Heq & _ & _ & _ & Hxs & _).
  { cbn. lia. }
  exists v'. injection Hy as <-. split; [exact Heq|exact Hxs].
Defined.

Lemma C9_size_le_capacity_witness :
  reachable (<[0%nat := vec [5] 0]> (<[0%nat := Vector_default]> ∅)) ∧
  (<[0%nat := vec [5] 0]> (<[0%nat := Vector_default]> ∅) : gmap nat Vector) !! 0%nat
    = Some (vec [5] 0) ∧
  (Size (vec [5]%Z 0) ≤ Capacity (vec [5]%Z 0))%nat.
Proof.
  assert (reachable (<[0%nat := vec [5] 0]> (<[0%nat := Vector_default]> ∅)))
    as Hreach.
  { eapply rtc_l; [apply (step_default ∅ 0%nat), lookup_empty|].
    eapply rtc_l; [|apply rtc_refl].
    eapply (step_push_back _ 0%nat Vector_default (ByCopy 5));
      [apply lookup_insert_eq|reflexivity]. }
  split; [exact Hreach|]. split; [apply lookup_insert_eq|].
  exact (proj2 (C9_size_le_capacity _ 0%nat _ Hreach (lookup_insert_eq _ _ _))).
Defined.

Lemma C10_self_copy_assign_witness :
  (<[0%nat := vec [1; 2] 1]> ∅ : gmap nat Vector) !! 0%nat = Some (vec [1; 2] 1) ∧
  copy_assign (<[0%nat := vec [1; 2] 1]> ∅) 0 0
  = Some (<[0%nat := vec [1; 2] 1]> ∅, []).
Proof.
  split; [apply lookup_insert_eq|].
  exact (C10_self_copy_assign _ 0%nat _ (lookup_insert_eq _ _ _)).
Defined.

(** C2, counterexample.  After the move assignment of [[3]] to a container
    holding [[1; 2]], the source is not empty: it holds [[1; 2]]. *)
Lemma C2_move_assign_source_not_empty :
  ∃ σ' source,
    move_assign_vec (<[1%nat := vec [3] 0]> (<[0%nat := vec [1; 2] 0]> ∅)) 0 1
    = Some (σ', []) ∧
    σ' !! 0%nat = Some (vec [3] 0) ∧
    σ' !! 1%nat = Some source ∧
    elements source = [1; 2] ∧ Size source ≠ 0%nat.
Proof.
  eexists _, (vec [1; 2] 0). split.
  { apply move_assign_vec_spec.
    - by rewrite lookup_insert_ne // lookup_insert_eq.
    - by rewrite lookup_insert_eq. }
  split; [by rewrite lookup_insert_ne // lookup_insert_eq|].
  split; [by rewrite lookup_insert_eq|]. split; [reflexivity|discriminate].
Qed.

Lemma C2_move_exchanges_witness :
  (<[1%nat := vec [3] 0]> (<[0%nat := vec [1; 2] 0]> ∅) : gmap nat Vector) !! 0%nat
    = Some (vec [1; 2] 0) ∧
  (<[1%nat := vec [3] 0]> (<[0%nat := vec [1; 2] 0]> ∅) : gmap nat Vector) !! 1%nat
    = Some (vec [3] 0) ∧
  ∃ σ',
    move_assign_vec (<[1%nat := vec [3] 0]> (<[0%nat := vec [1; 2] 0]> ∅)) 0 1
    = Some (σ', []) ∧
    σ' !! 0%nat = Some (vec [3] 0) ∧ σ' !! 1%nat = Some (vec [1; 2] 0).
Proof.
  assert ((<[1%nat := vec [3] 0]> (<[0%nat := vec [1; 2] 0]> ∅)
            : gmap nat Vector) !! 0%nat = Some (vec [1; 2] 0)) as H0
    by (by rewrite lookup_insert_ne // lookup_insert_eq).
  assert ((<[1%nat := vec [3] 0]> (<[0%nat := vec [1; 2] 0]> ∅)
            : gmap nat Vector) !! 1%nat = Some (vec [3] 0)) as H1
    by (by rewrite lookup_insert_eq).
  split; [exact H0|]. split; [exact H1|].
  destruct (C2_move_exchanges _ 0%nat 1%nat _ _ H0 H1)
    as (_ & _ & σ' & Heq & _ & Hthis & Hrhs).
  exists σ'. split; [exact Heq|]. split; [exact Hthis|exact Hrhs].
Defined.

Lemma X5_pop_back_witness :
  wf (vec [1; 2] 0) ∧ wf (vec (@nil Z) 2) ∧
  (∃ v', PopBack (vec [1; 2] 0) = Some (v', [EvDtor 2]) ∧ elements v' = [1]) ∧
  PopBack (vec (@nil Z) 2) = None.
Proof.
  split; [apply wf_vec|]. split; [apply wf_vec|]. split.
  - destruct (X5_pop_back (vec [1; 2] 0) (wf_vec _ _))
      as (v' & x & Hx & Heq & _ & Hxs & _).
    exists v'. injection Hx as <-. split; [exact Heq|exact Hxs].
  - exact (X5_pop_back (vec (@nil Z) 2) (wf_vec _ _)).
Defined.

Lemma X7_erase_out_of_range_witness :
  wf (vec [1; 2] 1) ∧ (Size (vec [1; 2]%Z 1) ≤ 2)%nat ∧ Erase (vec [1; 2] 1) 2 = None.
Proof.
  split; [apply wf_vec|]. split; [cbn; lia|].
  apply (X7_erase_out_of_range (vec [1; 2] 1) 2 (wf_vec _ _)). cbn. lia.
Defined.

Lemma X8_index_witness :
  wf (vec [1; 2] 1) ∧
  at_ (vec [1; 2] 1) 1 = Some (2, []) ∧ at_ (vec [1; 2] 1) 2 = None.
Proof.
  split; [apply wf_vec|]. split.
  - exact (X8_index (vec [1; 2] 1) 1 (wf_vec _ _)).
  - exact (X8_index (vec [1; 2] 1) 2 (wf_vec _ _)).
Defined.

Lemma X9_emplace_in_place_witness :
  wf (vec [1; 2; 3] 1) ∧ (1 < Size (vec [1; 2; 3]%Z 1))%nat ∧
  (Size (vec [1; 2; 3]%Z 1) < Capacity (vec [1; 2; 3]%Z 1))%nat ∧
  ∃ v',
    Emplace (vec [1; 2; 3] 1) 1 (ByCopy 9)
    = Some (v', 1%nat,
            [EvCopyCtor 9; EvMoveCtor 3; EvMoveAssign 2; EvMoveAssign 9; EvDtor 9]) ∧
    elements v' = [1; 9; 2; 3] ∧ Capacity v' = 4%nat.
Proof.
  split; [apply wf_vec|]. split; [cbn; lia|]. split; [cbn; lia|].
  destruct (X9_emplace_in_place (vec [1; 2; 3] 1) 1 (ByCopy 9) (wf_vec _ _))
    as (v' & z & Hz & Heq & _ & Hxs & Hcap); [cbn; lia..|].
  exists v'. injection Hz as <-. split; [exact Heq|]. split; [exact Hxs|exact Hcap].
Defined.

Lemma X11_emplace_at_end_in_place_witness :
  wf (vec [1; 2] 2) ∧ Size (vec [1; 2]%Z 2) ≠ 0%nat ∧
  (Size (vec [1; 2]%Z 2) < Capacity (vec [1; 2]%Z 2))%nat ∧
  Emplace (vec [1; 2] 2) 2 (ByCopy 9) = None.
Proof.
  split; [apply wf_vec|]. split; [discriminate|]. split; [cbn; lia|].
  destruct (X11_emplace_at_end_in_place (vec [1; 2] 2) (ByCopy 9) (wf_vec _ _))
    as (z & _ & Heq); [discriminate|cbn; lia|].
  exact Heq.
Defined.

Lemma X12_swap_witness :
  (<[1%nat := vec [3] 0]> (<[0%nat := vec [1; 2] 0]> ∅) : gmap nat Vector) !! 0%nat
    = Some (vec [1; 2] 0) ∧
  (<[1%nat := vec [3] 0]> (<[0%nat := vec [1; 2] 0]> ∅) : gmap nat Vector) !! 1%nat
    = Some (vec [3] 0) ∧
  ∃ σ',
    Swap_at (<[1%nat := vec [3] 0]> (<[0%nat := vec [1; 2] 0]> ∅)) 0 1
    = Some (σ', []) ∧
    σ' !! 0%nat = Some (vec [3] 0) ∧ σ' !! 1%nat = Some (vec [1; 2] 0) ∧
    Swap_at σ' 0 1
    = Some (<[1%nat := vec [3] 0]> (<[0%nat := vec [1; 2] 0]> ∅), []).
Proof.
  assert ((<[1%nat := vec [3] 0]> (<[0%nat := vec [1; 2] 0]> ∅)
            : gmap nat Vector) !! 0%nat = Some (vec [1; 2] 0)) as H0
    by (by rewrite lookup_insert_ne // lookup_insert_eq).
  assert ((<[1%nat := vec [3] 0]> (<[0%nat := vec [1; 2] 0]> ∅)
            : gmap nat Vector) !! 1%nat = Some (vec [3] 0)) as H1
    by (by rewrite lookup_insert_eq).
  split; [exact H0|]. split; [exact H1|].
  destruct (X12_swap _ 0%nat 1%nat _ _ H0 H1) as (σ' & Heq & _ & Ha & Hb & Hback).
  exists σ'. split; [exact Heq|]. split; [exact Ha|]. split; [exact Hb|exact Hback].
Defined.

Lemma X13_self_move_assign_witness :
  (<[0%nat := vec [1; 2] 1]> ∅ : gmap nat Vector) !! 0%nat = Some (vec [1; 2] 1) ∧
  move_assign_vec (<[0%nat := vec [1; 2] 1]> ∅) 0 0
  = Some (<[0%nat := vec [1; 2] 1]> ∅, []).
Proof.
  split; [apply lookup_insert_eq|].
  exact (X13_self_move_assign _ 0%nat _ (lookup_insert_eq _ _ _)).
Defined.

Lemma X14_destructor_witness :
  wf (vec [1; 2; 3] 1) ∧
  Vector_dtor (vec [1; 2; 3] 1) = Some ((), [EvDtor 1; EvDtor 2; EvDtor 3]).
Proof.
  split; [apply wf_vec|]. exact (X14_destructor (vec [1; 2; 3] 1) (wf_vec _ _)).
Defined.

Lemma X19_erase_insert_witness :
  wf (vec [1; 2; 3] 0) ∧ elements (vec [1; 2; 3] 0) !! 0%nat = Some 1 ∧
  (1 < Size (vec [1; 2; 3]%Z 0))%nat ∧
  ∃ v1 log1 v2 log2,
    Erase (vec [1; 2; 3] 0) 0 = Some (v1, 0%nat, log1) ∧
    Insert v1 0 1 = Some (v2, 0%nat, log2) ∧
    elements v2 = [1; 2; 3].
Proof.
  split; [apply wf_vec|]. split; [reflexivity|]. split; [cbn; lia|].
  destruct (X19_erase_insert (vec [1; 2; 3] 0) 0 1 (wf_vec _ _) eq_refl)
    as (v1 & log1 & v2 & log2 & Her & Hins & Hxs & _); [left; cbn; lia|].
  exists v1, log1, v2, log2. split; [exact Her|]. split; [exact Hins|exact Hxs].
Defined.

End int_runs.

(** * Concrete runs on [int] with a [size_t] that does not wrap *)

Section int_runs_unbounded.
#[local] Existing Instance int_element.
#[local] Existing Instance unbounded_size.
#[local] Existing Instance checked_ranges.
Local Open Scope Z_scope.

Lemma X2_copy_construct_witness :
  wf (vec [1; 2] 3) ∧
  ∃ v, Vector_copy (vec [1; 2] 3) = Some (v, [EvCopyCtor 1; EvCopyCtor 2]) ∧
       elements v = [1; 2] ∧ Capacity v = 2%nat.
Proof.
  split; [apply wf_vec|].
  destruct (X2_copy_construct (vec [1; 2] 3) (wf_vec _ _))
    as (v & Heq & _ & Hxs & _ & Hcap).
  exists v. split; [exact Heq|]. split; [exact Hxs|exact Hcap].
Defined.

Lemma X3_copy_assign_witness :
  (<[1%nat := vec [7] 1]> (<[0%nat := vec [1; 2; 3] 0]> ∅) : gmap nat Vector) !! 0%nat
    = Some (vec [1; 2; 3] 0) ∧
  (<[1%nat := vec [7] 1]> (<[0%nat := vec [1; 2; 3] 0]> ∅) : gmap nat Vector) !! 1%nat
    = Some (vec [7] 1) ∧
  0%nat ≠ 1%nat ∧ wf (vec [1; 2; 3] 0) ∧ wf (vec [7] 1) ∧
  ∃ v',
    copy_assign (<[1%nat := vec [7] 1]> (<[0%nat := vec [1; 2; 3] 0]> ∅)) 0 1
    = Some (<[0%nat := v']> (<[1%nat := vec [7] 1]> (<[0%nat := vec [1; 2; 3] 0]> ∅)),
            [EvCopyAssign 7; EvDtor 2; EvDtor 3]) ∧
    elements v' = [7] ∧ Capacity v' = 3%nat.
Proof.
  assert ((<[1%nat := vec [7] 1]> (<[0%nat := vec [1; 2; 3] 0]> ∅)
            : gmap nat Vector) !! 0%nat = Some (vec [1; 2; 3] 0)) as H0
    by (by rewrite lookup_insert_ne // lookup_insert_eq).
  assert ((<[1%nat := vec [7] 1]> (<[0%nat := vec [1; 2; 3] 0]> ∅)
            : gmap nat Vector) !! 1%nat = Some (vec [7] 1)) as H1
    by (by rewrite lookup_insert_eq).
  split; [exact H0|]. split; [exact H1|]. split; [discriminate|].
  split; [apply wf_vec|]. split; [apply wf_vec|].
  destruct (X3_copy_assign _ 0%nat 1%nat _ _ H0 H1 ltac:(discriminate)
              (wf_vec _ _) (wf_vec _ _)) as (v' & Heq & _ & _ & Hxs & Hcap).
  exists v'. split; [exact Heq|]. split; [exact Hxs|exact Hcap].
Defined.




End int_runs_unbounded.

(** * Counts that the caller chooses, on [int] with a [size_t] of 64 bits *)

Section int_runs_64.
#[local] Existing Instance int_element.
#[local] Existing Instance int_size_t_64.
#[local] Existing Instance checked_ranges.
Local Open Scope Z_scope.


Lemma C6_growth_witness :
  wf (vec [1; 2] 0) ∧ (1 ≤ Size (vec [1; 2]%Z 0))%nat ∧
  (Size (vec [1; 2]%Z 0) = Capacity (vec [1; 2]%Z 0) → fits (grown_capacity (vec [1; 2] 0))) ∧
  ∃ v' log, Emplace (vec [1; 2] 0) 1 (ByCopy 7) = Some (v', 1%nat, log) ∧
            wf v' ∧ Capacity v' = 4%nat ∧ elements v' = [1; 7; 2].
Proof.
  split; [apply wf_vec|]. split; [cbn; lia|]. split; [intros _; reflexivity|].
  destruct (C6_growth (vec [1; 2] 0) (ByCopy 7) 1 (wf_vec _ _))
    as (_ & _ & v' & log & Heq & Hwf & Hcap & _ & _ & Hxs).
  { cbn. lia. }
  { intros _. reflexivity. }
  exists v', log. split; [exact Heq|]. split; [exact Hwf|].
  split; [exact Hcap|exact Hxs].
Defined.

Lemma X1_construct_by_size_witness :
  fits 3 ∧
  ∃ v, Vector_sized 3 = Some (v, [EvValueInit 0; EvValueInit 0; EvValueInit 0]) ∧
       wf v ∧ elements v = [0; 0; 0] ∧ Capacity v = 3%nat.
Proof.
  assert (fits 3) as Hfits by reflexivity.
  split; [exact Hfits|].
  destruct (X1_construct_by_size 3 Hfits) as (v & Heq & Hwf & _ & Hcap & Hxs).
  exists v. split; [exact Heq|]. split; [exact Hwf|]. split; [exact Hxs|exact Hcap].
Defined.

Lemma X4_resize_witness :
  wf (vec [1; 2; 3] 1) ∧
  ((Capacity (vec [1; 2; 3]%Z 1) < 1)%nat → fits 1) ∧
  ((Capacity (vec [1; 2; 3]%Z 1) < 6)%nat → fits 6) ∧
  (∃ v', Resize (vec [1; 2; 3] 1) 1 = Some (v', [EvDtor 2; EvDtor 3]) ∧
         elements v' = [1] ∧ Capacity v' = 4%nat) ∧
  (∃ v', Resize (vec [1; 2; 3] 1) 6
         = Some (v', [EvMoveCtor 1; EvMoveCtor 2; EvMoveCtor 3;
                      EvDtor 1; EvDtor 2; EvDtor 3;
                      EvValueInit 0; EvValueInit 0; EvValueInit 0]) ∧
         elements v' = [1; 2; 3; 0; 0; 0] ∧ Capacity v' = 6%nat).
Proof.
  assert ((Capacity (vec [1; 2; 3]%Z 1) < 1)%nat → fits 1) as Hfits1
    by (intros _; reflexivity).
  assert ((Capacity (vec [1; 2; 3]%Z 1) < 6)%nat → fits 6) as Hfits6
    by (intros _; reflexivity).
  split; [apply wf_vec|]. split; [exact Hfits1|]. split; [exact Hfits6|]. split.
  - destruct (X4_resize (vec [1; 2; 3] 1) 1 (wf_vec _ _) Hfits1)
      as (v' & Heq & _ & _ & Hxs & Hcap).
    exists v'. split; [exact Heq|]. split; [exact Hxs|exact Hcap].
  - destruct (X4_resize (vec [1; 2; 3] 1) 6 (wf_vec _ _) Hfits6)
      as (v' & Heq & _ & _ & Hxs & Hcap).
    exists v'. split; [exact Heq|]. split; [exact Hxs|exact Hcap].
Defined.

Lemma X15_reserve_then_push_back_witness :
  wf (vec [1] 0) ∧
  (Size (vec [1]%Z 0) + length [ByCopy 2; ByMove 3] ≤ 8)%nat ∧
  ((Capacity (vec [1]%Z 0) < 8)%nat → fits 8) ∧
  ∃ v1 log1 v2,
    Reserve (vec [1] 0) 8 = Some (v1, log1) ∧
    push_back_all v1 [ByCopy 2; ByMove 3] = Some (v2, [EvCopyCtor 2; EvMoveCtor 3]) ∧
    elements v2 = [1; 2; 3].
Proof.
  split; [apply wf_vec|]. split; [cbn; lia|]. split; [intros _; reflexivity|].
  destruct (X15_reserve_then_push_back (vec [1] 0) 8 [ByCopy 2; ByMove 3]
              (wf_vec _ _)) as (v1 & log1 & v2 & Hres & Hpush & _ & Hxs & _);
    [cbn; lia|intros _; reflexivity|].
  exists v1, log1, v2. split; [exact Hres|]. split; [exact Hpush|exact Hxs].
Defined.

Lemma X18_constructions_and_destructions_witness :
  wf (Vector_default (T := Z)) ∧
  run_fits (Vector_default (T := Z))
    [CallPushBack (ByCopy 1); CallPushBack (ByCopy 2); CallEmplace 1 (ByCopy 9);
     CallErase 0; CallResize 4; CallPopBack] ∧
  run Vector_default
    [CallPushBack (ByCopy 1); CallPushBack (ByCopy 2); CallEmplace 1 (ByCopy 9);
     CallErase 0; CallResize 4; CallPopBack]
  = Some (vec [9; 2; 0] 1,
          [EvCopyCtor 1; EvCopyCtor 2; EvMoveCtor 1; EvDtor 1;
           EvCopyCtor 9; EvMoveCtor 1; EvMoveCtor 2; EvDtor 1; EvDtor 2;
           EvMoveAssign 9; EvMoveAssign 2; EvDtor 2;
           EvValueInit 0; EvValueInit 0; EvDtor 0]) ∧
  ∃ log',
    Vector_dtor (vec [9; 2; 0] 1) = Some ((), log') ∧
    (Z.of_nat (Size (Vector_default (T := Z)))
     + balance ([EvCopyCtor 1; EvCopyCtor 2; EvMoveCtor 1; EvDtor 1;
                 EvCopyCtor 9; EvMoveCtor 1; EvMoveCtor 2; EvDtor 1; EvDtor 2;
                 EvMoveAssign 9; EvMoveAssign 2; EvDtor 2;
                 EvValueInit 0; EvValueInit 0; EvDtor 0] ++ log') = 0).
Proof.
  split; [exact (wf_vec (@nil Z) 0)|].
  assert (run_fits (Vector_default (T := Z))
            [CallPushBack (ByCopy 1); CallPushBack (ByCopy 2);
             CallEmplace 1 (ByCopy 9); CallErase 0; CallResize 4; CallPopBack])
    as Hfits.
  { vm_compute. repeat split; intros; reflexivity. }
  assert (run (Vector_default (T := Z))
            [CallPushBack (ByCopy 1); CallPushBack (ByCopy 2);
             CallEmplace 1 (ByCopy 9); CallErase 0; CallResize 4; CallPopBack]
          = Some (vec [9; 2; 0] 1,
                  [EvCopyCtor 1; EvCopyCtor 2; EvMoveCtor 1; EvDtor 1;
                   EvCopyCtor 9; EvMoveCtor 1; EvMoveCtor 2; EvDtor 1; EvDtor 2;
                   EvMoveAssign 9; EvMoveAssign 2; EvDtor 2;
                   EvValueInit 0; EvValueInit 0; EvDtor 0])) as Hrun
    by reflexivity.
  split; [exact Hfits|]. split; [exact Hrun|].
  exact (proj2 (proj2 (X18_constructions_and_destructions _ _ _ _
                         (wf_vec (@nil Z) 0) Hfits Hrun))).
Defined.

Lemma X23_push_back_within_size_t_witness :
  (∀ n, (n ≤ 2 * length [ByCopy 1; ByMove 2; ByArgs 3])%nat → fits n) ∧
  ∃ v log,
    push_back_all Vector_default [ByCopy 1; ByMove 2; ByArgs 3] = Some (v, log) ∧
    wf v ∧ elements v = [1; 2; 3] ∧ at_ v 2 = Some (3, []).
Proof.
  assert (∀ n, (n ≤ 2 * length [ByCopy 1; ByMove 2; ByArgs 3])%nat → fits n)
    as Hfits.
  { intros n Hn. apply fits_size_t_bits. cbn in Hn. lia. }
  split; [exact Hfits|].
  destruct (X23_push_back_within_size_t [ByCopy 1; ByMove 2; ByArgs 3] Hfits)
    as (v & log & Heq & Hwf & _ & Hxs & Hat).
  exists v, log. split; [exact Heq|]. split; [exact Hwf|].
  split; [exact Hxs|exact (Hat 2%nat)].
Defined.

(** [Vector<int> v(1); v.Reserve(size_t(1) << 62)]: the byte count
    [2 ^ 62 * 4] is 0 in a [size_t] of 64 bits, the block is empty and the
    relocation of the one element has no defined result. *)
Lemma Allocate_1_shl_62 : Allocate (T := Z) (2 ^ 62) = [].
Proof.
  unfold Allocate. rewrite bool_decide_true; last by apply Nat.pow_nonzero.
  cbn [size_mul sizeof int_size_t_64 size_t_bits].
  rewrite Nat2N.inj_pow.
  replace ((N.of_nat 2 ^ N.of_nat 62 * N.of_nat (Pos.to_nat 4)) mod 2 ^ 64)%N
    with 0%N by (vm_compute; reflexivity).
  reflexivity.
Qed.

Lemma Reserve_1_shl_62 : Reserve (vec [7] 0) (2 ^ 62) = None.
Proof.
  rewrite Reserve_any; last by apply (Nat.pow_gt_1 2 62); [lia|discriminate].
  by rewrite Allocate_1_shl_62.
Qed.

End int_runs_64.

(** * Concrete runs on [int] with a [size_t] of 16 bits

    [Reserve(1 << 15)] asks [operator new] for [(1 << 15) * 2] bytes, which
    is 0 in a [size_t] of 16 bits. *)

Section int_runs_16.
#[local] Existing Instance int_element.
#[local] Existing Instance int_size_t_16.
#[local] Existing Instance checked_ranges.
Local Open Scope Z_scope.

Lemma X20_reserve_short_block_witness :
  wf (vec [1] 0) ∧ wf (vec (@nil Z) 0) ∧
  (Capacity (vec [1]%Z 0) < 2 ^ 15)%nat ∧ (length (Allocate (T := Z) (2 ^ 15)) < 2 ^ 15)%nat ∧
  Reserve (vec [1] 0) (2 ^ 15) = None ∧
  ∃ v' log, Reserve (vec (@nil Z) 0) (2 ^ 15) = Some (v', log) ∧
            Capacity v' = (2 ^ 15)%nat ∧ length (buffer_ (data_ v')) = 0%nat ∧ ¬ wf v'.
Proof.
  assert ((length (Allocate (T := Z) (2 ^ 15)) < 2 ^ 15)%nat) as Hshort
    by (replace (Allocate (T := Z) (2 ^ 15)) with (@nil (option Z))
          by (vm_compute; reflexivity);
        apply Nat.neq_0_lt_0, Nat.pow_nonzero; discriminate).
  split; [apply wf_vec|]. split; [apply wf_vec|].
  assert ((Capacity (vec [1]%Z 0) < 2 ^ 15)%nat) as Hcap1
    by (apply (Nat.pow_gt_1 2 15); [lia|discriminate]).
  assert ((Capacity (vec (@nil Z) 0) < 2 ^ 15)%nat) as Hcap0
    by (apply Nat.neq_0_lt_0, Nat.pow_nonzero; discriminate).
  split; [exact Hcap1|].
  split; [exact Hshort|]. split.
  - exact (X20_reserve_short_block (vec [1] 0) (2 ^ 15) (wf_vec _ _) Hcap1 Hshort).
  - destruct (X20_reserve_short_block (vec (@nil Z) 0) (2 ^ 15) (wf_vec _ _)
                Hcap0 Hshort)
      as (v' & log & Heq & _ & _ & Hcap & Hlen & Hwf).
    exists v', log. split; [exact Heq|]. split; [exact Hcap|].
    split; [exact Hlen|exact Hwf].
Defined.

Lemma X21_construct_by_size_short_block_witness :
  (length (Allocate (T := Z) (2 ^ 15)) < 2 ^ 15)%nat ∧ Vector_sized (2 ^ 15) = None.
Proof.
  assert ((length (Allocate (T := Z) (2 ^ 15)) < 2 ^ 15)%nat) as Hshort
    by (replace (Allocate (T := Z) (2 ^ 15)) with (@nil (option Z))
          by (vm_compute; reflexivity);
        apply Nat.neq_0_lt_0, Nat.pow_nonzero; discriminate).
  split; [exact Hshort|]. exact (X21_construct_by_size_short_block (2 ^ 15) Hshort).
Defined.

Lemma X22_resize_short_block_witness :
  wf (vec [1] 0) ∧ (Capacity (vec [1]%Z 0) < 2 ^ 15)%nat ∧
  (length (Allocate (T := Z) (2 ^ 15)) < 2 ^ 15)%nat ∧
  Resize (vec [1] 0) (2 ^ 15) = None.
Proof.
  assert ((length (Allocate (T := Z) (2 ^ 15)) < 2 ^ 15)%nat) as Hshort
    by (replace (Allocate (T := Z) (2 ^ 15)) with (@nil (option Z))
          by (vm_compute; reflexivity);
        apply Nat.neq_0_lt_0, Nat.pow_nonzero; discriminate).
  assert ((Capacity (vec [1]%Z 0) < 2 ^ 15)%nat) as Hcap
    by (apply (Nat.pow_gt_1 2 15); [lia|discriminate]).
  split; [apply wf_vec|]. split; [exact Hcap|]. split; [exact Hshort|].
  exact (X22_resize_short_block (vec [1] 0) (2 ^ 15) (wf_vec _ _) Hcap Hshort).
Defined.

End int_runs_16.

(** * Concrete runs on a copyable type whose move constructor may throw *)

Section throwing_move_runs.
#[local] Existing Instance throwing_move_element.
#[local] Existing Instance int_size_t_64.
#[local] Existing Instance checked_ranges.
Local Open Scope Z_scope.

Lemma C4_relocation_policy_witness :
  wf (vec [1; 2] 0) ∧ (1 ≤ Size (vec [1; 2]%Z 0))%nat ∧
  ((Capacity (vec [1; 2]%Z 0) < 5)%nat → fits 5) ∧
  (Size (vec [1; 2]%Z 0) = Capacity (vec [1; 2]%Z 0) → fits (grown_capacity (vec [1; 2] 0))) ∧
  (∃ v', Reserve (vec [1; 2] 0) 5
         = Some (v', [EvCopyCtor 1; EvCopyCtor 2; EvDtor 1; EvDtor 2]) ∧
         wf v' ∧ elements v' = [1; 2] ∧ Capacity v' = 5%nat) ∧
  (∃ v', EmplaceBack (vec [1; 2] 0) (ByMove 7)
         = Some (v', 2%nat, [EvMoveCtor 7; EvCopyCtor 1; EvCopyCtor 2; EvDtor 1; EvDtor 2]) ∧
         wf v' ∧ elements v' = [1; 2; 7]) ∧
  (∃ v', Emplace (vec [1; 2] 0) 1 (ByMove 7)
         = Some (v', 1%nat, [EvMoveCtor 7; EvCopyCtor 1; EvCopyCtor 2; EvDtor 1; EvDtor 2]) ∧
         wf v' ∧ elements v' = [1; 7; 2]).
Proof.
  split; [apply wf_vec|]. split; [cbn; lia|].
  split; [intros _; reflexivity|]. split; [intros _; reflexivity|].
  destruct (C4_relocation_policy (vec [1; 2] 0) 5 1 (ByMove 7) (wf_vec _ _))
    as (Hres & Hback & Hem).
  { cbn. lia. }
  { intros _. reflexivity. }
  { intros _. reflexivity. }
  split; [exact Hres|]. split; [exact Hback|exact Hem].
Defined.

End throwing_move_runs.

(** * Concrete runs on [std::string] with a [size_t] of 64 bits *)

Section string_runs.
#[local] Existing Instance string_element.
#[local] Existing Instance string_size_t_64.
Local Open Scope string_scope.

(** C3, the failing run.  A container holding ["a"; "b"] with capacity 4 is
    built through the public interface.  [EmplaceBack] adds ["c"] in the
    next raw slot and gives ["a"; "b"; "c"].  [Emplace] at [end()] takes the
    in-place branch: it move-constructs the last element into the raw slot
    and then calls [std::move_backward] on the range from [end()] to
    [end() - 1], which is not a valid range.  The call has no defined
    result; where the library takes the range as empty, the result holds
    the moved-from state of ["b"] in place of ["b"]. *)
Lemma C3_emplace_at_end_undefined :
  (let* v := Reserve Vector_default 4 in
   let* v := PushBack v "a" in
   PushBack v "b")
  = Some (vec ["a"; "b"] 2, [EvCopyCtor "a"; EvCopyCtor "b"]) ∧
  EmplaceBack (vec ["a"; "b"] 2) (ByCopy "c")
  = Some (vec ["a"; "b"; "c"] 1, 2, [EvCopyCtor "c"]) ∧
  Emplace (R := checked_ranges) (vec ["a"; "b"] 2) (Size (vec ["a"; "b"] 2)) (ByCopy "c")
  = None ∧
  Emplace (R := counted_ranges) (vec ["a"; "b"] 2) (Size (vec ["a"; "b"] 2)) (ByCopy "c")
  = Some (vec ["a"; EmptyString; "c"] 1, 2,
          [EvCopyCtor "c"; EvMoveCtor "b"; EvMoveAssign "c"; EvDtor EmptyString]).
Proof. split_and!; reflexivity. Qed.

(** C8, the failing run.  On the same container, [Insert] at [end()] either
    has no defined result, so that there is no position to [Erase] at, or
    leaves the last element moved-from, so that [Erase] at the returned
    position does not give back ["a"; "b"]. *)
Lemma C8_insert_at_end_undefined :
  Insert (R := checked_ranges) (vec ["a"; "b"] 2) 2 "c" = None ∧
  Insert_rvalue (R := checked_ranges) (vec ["a"; "b"] 2) 2 "c" = None ∧
  (let* (v, pos) := Insert (R := counted_ranges) (vec ["a"; "b"] 2) 2 "c" in
   let* (v, _) := Erase (R := counted_ranges) v pos in
   ret (elements v, Size v))
  = Some ((["a"; EmptyString], 2),
          [EvCopyCtor "c"; EvMoveCtor "b"; EvMoveAssign "c"; EvDtor EmptyString;
           EvDtor "c"]).
Proof. split_and!; reflexivity. Qed.

(** Away from [end()] the round trip gives the elements back. *)
Example insert_erase_in_the_middle :
  (let* (v, pos) := Insert (R := checked_ranges) (vec ["a"; "b"] 2) 1 "c" in
   let* (v, _) := Erase (R := checked_ranges) v pos in
   ret (elements v, Size v))
  = Some ((["a"; "b"], 2),
          [EvCopyCtor "c"; EvMoveCtor "b"; EvMoveAssign "c"; EvDtor EmptyString;
           EvMoveAssign "b"; EvDtor EmptyString]).
Proof. reflexivity. Qed.

End string_runs.
